(** * smolcert: CBOR based certificates, validation against a pool of roots

    A shallow embedding of [certificates.go] and the properties of its
    validation engine.

    Conventions of the embedding.
    - A Go [error] is the message it carries ([errors.New] builds it from a
      string, [err.Error()] reads it back), so an error is a [string].
    - A call either returns, returns an error, or panics (nil pointer
      dereference): [result].
    - A pointer to data that this package never writes to ([*Validity],
      [*Time], the certificates of a pool) is an [option]; [None] is [nil].
    - [[]byte] and [string] are sequences of bytes; a nil slice is the empty
      sequence (the package never compares a slice with nil).
    - [uint64] is an [N] and [int64] a [Z]; the package does no arithmetic on
      them, the ranges only matter to the wire format.
    - A [time.Time] is written as the number of nanoseconds that it reads
      since the Unix epoch, [Unix() * 10^9 + Nanosecond()]. What it holds,
      and what [Before] and [After] compare, is a number of seconds since
      January 1 of year 1 in an [int64], which wraps around ([time_sec]), and
      the nanoseconds within the second.
    - The CBOR codec (github.com/ugorji/go/codec), the signature scheme
      (golang.org/x/crypto/ed25519) and the wall clock are outside this
      package: they are interfaces ([Codec], [Ed25519], [Clock]).
      [ed25519.Verify] panics on a public key that is not
      [ed25519.PublicKeySize] bytes long; the interface is its answer on the
      other keys.
    - The certificates of a bundle are not nil ([ValidateBundle] reads the
      issuer of each in its first loop).
    - Where [validateCertificate] writes to a certificate, the certificates
      are objects of a store ([Store]); everywhere else a certificate is the
      value of its fields. *)

From Stdlib Require Import ZArith NArith Strings.Byte Strings.String.
From stdpp Require Import base option gmap strings list.

#[local] Open Scope Z_scope.

(** ** Results of calls *)

Definition error := string.

Inductive result (A : Type) : Type :=
  | Ok (a : A)
  | Err (e : error)
  | Panic.
Arguments Ok {A} a.
Arguments Err {A} e.
Arguments Panic {A}.

#[global] Instance result_ret : MRet result := @Ok.
#[global] Instance result_bind : MBind result := λ A B f m,
  match m with
  | Ok a => f a
  | Err e => Err e
  | Panic => Panic
  end.

(** Dereferencing a pointer: nil panics. *)
Definition deref {A} (p : option A) : result A :=
  match p with
  | Some a => Ok a
  | None => Panic
  end.

(** ** package time *)

Definition time := Z.

(** [time.Unix(sec, nsec)] *)
Definition time_Unix (sec nsec : Z) : time := sec * 1000000000 + nsec.

(** The value of an [int64] computation: the result wraps around. *)
Definition wrap64 (z : Z) : Z := (z + 2 ^ 63) mod 2 ^ 64 - 2 ^ 63.

(** The seconds from January 1 of year 1 to the Unix epoch
    ([unixToInternal] of package time). *)
Definition unixToInternal : Z := 62135596800.

(** [t.sec()] and [t.nsec()]: the seconds since January 1 of year 1 that
    the time holds, an [int64] ([time.Unix] adds [unixToInternal] to its
    argument in [int64]), and the nanoseconds within the second. *)
Definition time_sec (t : time) : Z := wrap64 (t / 1000000000 + unixToInternal).
Definition time_nsec (t : time) : Z := t mod 1000000000.

(** [t.Before(u)] and [t.After(u)], of which one time at least has no
    monotonic clock reading (the result of [time.Unix] has none). *)
Definition time_Before (t u : time) : bool :=
  (time_sec t <? time_sec u)
  || ((time_sec t =? time_sec u) && (time_nsec t <? time_nsec u)).
Definition time_After (t u : time) : bool :=
  (time_sec u <? time_sec t)
  || ((time_sec t =? time_sec u) && (time_nsec u <? time_nsec t)).

(** ** The data model *)

(** [type Time int64]: seconds since the epoch. *)
Definition Time := Z.

Definition ZeroTime : Time := 0.

(** [func NewTime(now time.Time) *Time]: [now.Unix()] is the number of whole
    seconds since the epoch. *)
Definition NewTime (now : time) : option Time := Some (now / 1000000000).

(** [func (t *Time) StdTime() time.Time] *)
Definition StdTime (t : option Time) : result time :=
  t' ← deref t; Ok (time_Unix t' 0).

(** [func (t *Time) IsZero() bool] *)
Definition IsZero (t : option Time) : bool :=
  match t with
  | None => true
  | Some t' => t' =? 0
  end.

Record Validity := mkValidity {
  NotBefore : option Time;
  NotAfter : option Time;
}.

Record Extension := mkExtension {
  OID : N;
  Critical : bool;
  Value : list byte;
}.

Record Certificate := mkCertificate {
  SerialNumber : N;
  Issuer : string;
  Validity_ : option Validity;
  Subject : string;
  PubKey : list byte;
  Extensions : list Extension;
  Signature : list byte;
}.

(** The assignment [cert.Signature = sig]. *)
Definition set_Signature (cert : Certificate) (sig : list byte) : Certificate :=
  {| SerialNumber := SerialNumber cert;
     Issuer := Issuer cert;
     Validity_ := Validity_ cert;
     Subject := Subject cert;
     PubKey := PubKey cert;
     Extensions := Extensions cert;
     Signature := sig |}.

(** [func (c *Certificate) PublicKey() []byte] *)
Definition PublicKey (c : Certificate) : list byte := PubKey c.

(** [func (c *Certificate) Copy() *Certificate]. [c.Validity.NotBefore]
    dereferences [c.Validity]. [append([]T{}, s...)] is a new slice with the
    elements of [s]. *)
Definition Copy (c : Certificate) : result Certificate :=
  let p2 := [] ++ PubKey c in
  v ← deref (Validity_ c);
  v' ← deref (Validity_ c);
  Ok {| SerialNumber := SerialNumber c;
        Issuer := Issuer c;
        Validity_ := Some {| NotBefore := NotBefore v; NotAfter := NotAfter v' |};
        Subject := Subject c;
        PubKey := p2;
        Extensions := [] ++ Extensions c;
        Signature := [] ++ Signature c |}.

(** ** The interfaces of the environment *)

(** [codec.NewEncoder(w, ch).Encode(cert)] writes bytes to [w] and returns an
    error or nil; [codec.NewDecoder(r, ch).Decode(cert)] reads from [r] and
    fills [cert] or returns an error. *)
Class Codec := {
  codec_Encode : Certificate → list byte * option error;
  codec_Decode : list byte → result Certificate;
}.

(** The signature scheme: whether [sig] is a signature of [message] under
    [publicKey], a key of [PublicKeySize] bytes. *)
Class Ed25519 := {
  ed25519_verify : list byte → list byte → list byte → bool;
}.

(** [ed25519.PublicKeySize] *)
Definition PublicKeySize : nat := 32.

(** [ed25519.Verify(publicKey, message, sig)]: "It will panic if
    len(publicKey) is not PublicKeySize." *)
Definition ed25519_Verify `{Ed25519} (publicKey message sig : list byte)
    : result bool :=
  if decide (length publicKey = PublicKeySize)
  then Ok (ed25519_verify publicKey message sig)
  else Panic.

(** [time.Now()]: the clock does not advance during a call into the
    package. *)
Class Clock := {
  time_Now : time;
}.

(** ** Serialization *)

Section serialization.
Context `{Codec}.

(** [func Parse(r io.Reader) (cert *Certificate, err error)] *)
Definition Parse (r : list byte) : result Certificate :=
  match codec_Decode r with
  | Ok cert => Ok cert
  | Err err => Err err
  | Panic => Panic
  end.

(** [func Serialize(cert *Certificate, w io.Writer) (err error)]: the bytes
    written to [w], and the error. *)
Definition Serialize (cert : Certificate) : list byte * option error :=
  let '(w, err) := codec_Encode cert in
  (w, err).

(** [func (c *Certificate) Bytes() ([]byte, error)] *)
Definition Bytes (c : Certificate) : list byte * option error :=
  let '(buf, err) := Serialize c in
  (buf, err).
End serialization.

(** ** Validation *)

Definition NotYetValidError : error := "certificate can't be valid yet".
Definition ExpiredError : error := "certificate is not valid anymore".
Definition EncodeError : error := "Failed to serialize certificate for validation".
Definition BadSignatureError : error := "Signature validation failed".
Definition UnknownIssuerError : error := "certificate is not signed by a known issuer".
Definition NoLeafError : error :=
  "Can't find non-intermediate certificate in certificate chain".
Definition BrokenChainError : error :=
  "Validation error in chain of intermediate certificates".
Definition NoTrustAnchorError : error :=
  "The intermediate chain is self signed and not signed by one of the root certs of this pool".

(** [type CertPool map[string]*Certificate]: a value may be nil. *)
Abbreviation CertPool := (gmap string (option Certificate)).

Section validation.
Context `{Codec, Ed25519, Clock}.

(** [func validateCertificate(origCert *Certificate, pubKey ed25519.PublicKey) error] *)
Definition validateCertificate (origCert : Certificate) (pubKey : list byte)
    : result unit :=
  cert ← Copy origCert;
  v ← deref (Validity_ cert);
  (if negb (IsZero (NotBefore v)) then
     notBefore ← StdTime (NotBefore v);
     if time_Before time_Now notBefore then Err NotYetValidError else Ok tt
   else Ok tt);;
  v ← deref (Validity_ cert);
  (if negb (IsZero (NotAfter v)) then
     notAfter ← StdTime (NotAfter v);
     if time_After time_Now notAfter then Err ExpiredError else Ok tt
   else Ok tt);;
  let sig := Signature cert in
  let cert := set_Signature cert [] in
  let '(certBytes, err) := Bytes cert in
  if err is Some _ then Err EncodeError
  else
    verified ← ed25519_Verify pubKey certBytes sig;
    if negb verified then Err BadSignatureError else Ok tt.

(** [func NewCertPool(rootCerts ...*Certificate) *CertPool] *)
Definition NewCertPool (rootCerts : list Certificate) : CertPool :=
  foldl (λ (p : CertPool) c, <[Subject c := Some c]> p)
    ∅ rootCerts.

(** [func (c *CertPool) Validate(cert *Certificate) error] *)
Definition Validate (c : CertPool) (cert : Certificate) : result unit :=
  match c !! Issuer cert with
  | None | Some None => Err UnknownIssuerError
  | Some (Some issuerCert) =>
      match validateCertificate issuerCert (PubKey issuerCert) with
      | Err err =>
          Err ("Error validating issuing root certificate: " +:+ err)
      | Panic => Panic
      | Ok _ => validateCertificate cert (PubKey issuerCert)
      end
  end.

(** The first loop of [ValidateBundle] (lines 66-71). *)
Definition bundleMaps (certBundle : list Certificate)
    : gmap string Certificate * gmap string Certificate :=
  foldl (λ '(issuerMap, subjectMap) cert,
           (<[Issuer cert := cert]> issuerMap, <[Subject cert := cert]> subjectMap))
    (∅, ∅) certBundle.

(** The second loop (lines 73-81): the intermediates in bundle order, and
    the client certificate. *)
Definition classify (issuerMap : gmap string Certificate)
    (certBundle : list Certificate) : list Certificate * option Certificate :=
  foldl (λ '(intermediateCerts, clientCert) cert,
           match issuerMap !! Subject cert with
           | Some _ => (intermediateCerts ++ [cert], clientCert)
           | None => (intermediateCerts, Some cert)
           end)
    ([], None) certBundle.

(** The third loop (lines 99-109): an error of a link returns at once. *)
Fixpoint validateChain (subjectMap : gmap string Certificate)
    (intermediateCerts : list Certificate) (chainTopCert : option Certificate)
    : result (option Certificate) :=
  match intermediateCerts with
  | [] => Ok chainTopCert
  | cert :: rest =>
      match subjectMap !! Issuer cert with
      | Some issuerCert =>
          match validateCertificate cert (PubKey issuerCert) with
          | Err _ => Err BrokenChainError
          | Panic => Panic
          | Ok _ => validateChain subjectMap rest chainTopCert
          end
      | None => validateChain subjectMap rest (Some cert)
      end
  end.

(** [func (c *CertPool) ValidateBundle(certBundle []*Certificate)
      (clientCert *Certificate, err error)] *)
Definition ValidateBundle (c : CertPool) (certBundle : list Certificate)
    : result Certificate :=
  let '(issuerMap, subjectMap) := bundleMaps certBundle in
  let '(intermediateCerts, clientCert) := classify issuerMap certBundle in
  match clientCert with
  | None => Err NoLeafError
  | Some clientCert =>
      match subjectMap !! Issuer clientCert with
      | Some clientIssuer =>
          match validateCertificate clientCert (PubKey clientIssuer) with
          | Err err => Err err
          | Panic => Panic
          | Ok _ =>
              chainTopCert ← validateChain subjectMap intermediateCerts None;
              match chainTopCert with
              | None => Err NoTrustAnchorError
              | Some chainTopCert =>
                  match Validate c chainTopCert with
                  | Err err => Err err
                  | Panic => Panic
                  | Ok _ => Ok clientCert
                  end
              end
          end
      | None =>
          match Validate c clientCert with
          | Ok _ => Ok clientCert
          | Err err =>
              Err ("No issuer for the client certificate was found in the intermediate certificates: " +:+ err)
          | Panic => Panic
          end
      end
  end.
End validation.

(** ** The same calls on objects in a store

    [validateCertificate] is handed a pointer, and assigns to a field of a
    certificate (line 137). To see which object is written, certificates live
    in a store here: a [*Certificate] is nil or a location, [Copy] allocates,
    and the assignment updates the object at a location. The copy shares the
    [*Time] bounds and the [Value] arrays of the extensions with the
    original; this package never writes through them, nor into a byte slice
    or a [Validity] struct, so the objects carry them by value and the store
    does not show that sharing. *)

Module Store.
Abbreviation loc := positive (only parsing).
Abbreviation heap := (gmap positive Certificate) (only parsing).

(** A computation on the store that returns, fails or panics. *)
Definition M (A : Type) : Type := heap → heap * result A.

#[global] Instance M_ret : MRet M := λ A a h, (h, Ok a).
#[global] Instance M_bind : MBind M := λ A B f m h,
  match m h with
  | (h', Ok a) => f a h'
  | (h', Err e) => (h', Err e)
  | (h', Panic) => (h', Panic)
  end.

Definition lift {A} (r : result A) : M A := λ h, (h, r).

(** [*p] *)
Definition load (p : option loc) : M Certificate := λ h,
  (h, l ← deref p; deref (h !! l)).

(** [*p = c] *)
Definition store (p : option loc) (c : Certificate) : M unit := λ h,
  match p with
  | Some l => if h !! l is Some _ then (<[l := c]> h, Ok tt) else (h, Panic)
  | None => (h, Panic)
  end.

(** [&Certificate{...}] *)
Definition alloc (c : Certificate) : M (option loc) := λ h,
  let l := fresh (dom h) in (<[l := c]> h, Ok (Some l)).

#[local] Abbreviation value_Copy := Copy (only parsing).

(** [func (c *Certificate) Copy() *Certificate] *)
Definition Copy (c : option loc) : M (option loc) :=
  obj ← load c;
  obj2 ← lift (value_Copy obj);
  alloc obj2.

Section store.
Context `{Codec, Ed25519, Clock}.

(** [func validateCertificate(origCert *Certificate, pubKey ed25519.PublicKey) error] *)
Definition validateCertificate (origCert : option loc) (pubKey : list byte)
    : M unit :=
  cert ← Copy origCert;
  obj ← load cert;
  v ← lift (deref (Validity_ obj));
  lift (if negb (IsZero (NotBefore v)) then
          notBefore ← StdTime (NotBefore v);
          if time_Before time_Now notBefore then Err NotYetValidError else Ok tt
        else Ok tt);;
  obj ← load cert;
  v ← lift (deref (Validity_ obj));
  lift (if negb (IsZero (NotAfter v)) then
          notAfter ← StdTime (NotAfter v);
          if time_After time_Now notAfter then Err ExpiredError else Ok tt
        else Ok tt);;
  obj ← load cert;
  let sig := Signature obj in
  store cert (set_Signature obj []);;
  obj ← load cert;
  let '(certBytes, err) := Bytes obj in
  lift (if err is Some _ then Err EncodeError
        else
          verified ← ed25519_Verify pubKey certBytes sig;
          if negb verified then Err BadSignatureError else Ok tt).
End store.
End Store.

(** ** The wire format

    Modelled from the spec: the encoder and the decoder of the canonical
    codec. They belong to the codec library, whose code is not part of
    [certificates.go]; the package only configures it (canonical mode, structs
    as arrays). The definitions of [Wire] follow sections 4.1 and 6 of the
    specification. *)

Module Wire.
#[local] Open Scope N_scope.

(** Modelled from the spec: a decoder of the codec library consumes a prefix
    of its input. *)
Definition parser (A : Type) : Type := list byte → option (A * list byte).

(** Modelled from the spec: the bytes of a number, which the codec library
    writes and reads; "minimal-width" widths are counted in bytes. *)
Definition byte_of_N (n : N) : byte := default "000"%byte (Byte.of_N (n mod 256)).

(** [w] bytes, most significant first. *)
Fixpoint be_bytes (w : nat) (n : N) : list byte :=
  match w with
  | O => []
  | S w' => be_bytes w' (n / 256) ++ [byte_of_N n]
  end.

Definition be_value (bs : list byte) : N :=
  foldl (λ acc b, acc * 256 + Byte.to_N b) 0 bs.

Definition take_exact (n : nat) : parser (list byte) := λ bs,
  if decide (n ≤ length bs)%nat then Some (take n bs, drop n bs) else None.

(** Modelled from the spec: the head of a data item, which the codec library
    writes. "Integers as minimal-width tagged values, strings/byte-strings
    length-prefixed, sequences length-prefixed": a tag (major type) with an
    argument in the smallest of the widths 0 (in the first byte), 1, 2, 4 and
    8 bytes. *)
Definition head (major arg : N) : list byte :=
  if arg <? 24 then [byte_of_N (major * 32 + arg)]
  else if arg <? 2 ^ 8 then byte_of_N (major * 32 + 24) :: be_bytes 1 arg
  else if arg <? 2 ^ 16 then byte_of_N (major * 32 + 25) :: be_bytes 2 arg
  else if arg <? 2 ^ 32 then byte_of_N (major * 32 + 26) :: be_bytes 4 arg
  else byte_of_N (major * 32 + 27) :: be_bytes 8 arg.

Definition width (info : N) : option nat :=
  if info =? 24 then Some 1%nat
  else if info =? 25 then Some 2%nat
  else if info =? 26 then Some 4%nat
  else if info =? 27 then Some 8%nat
  else None.

(** Modelled from the spec: reading a head back, "self-describing". *)
Definition read_head : parser (N * N) := λ bs,
  match bs with
  | [] => None
  | b :: rest =>
      let major := Byte.to_N b / 32 in
      let info := Byte.to_N b mod 32 in
      if info <? 24 then Some ((major, info), rest)
      else
        w ← width info;
        '(arg, rest') ← take_exact w rest;
        Some ((major, be_value arg), rest')
  end.

(** Modelled from the spec: reading a head of a given major type. *)
Definition read_major (major : N) : parser N := λ bs,
  '((m, arg), rest) ← read_head bs;
  if m =? major then Some (arg, rest) else None.

(** Modelled from the spec: the items of the wire format of the codec
    library: unsigned integers, signed integers, byte strings, text strings,
    booleans. *)
Definition enc_uint (n : N) : list byte := head 0 n.
Definition dec_uint : parser N := read_major 0.

Definition enc_int (z : Z) : list byte :=
  if (0 <=? z)%Z then head 0 (Z.to_N z) else head 1 (Z.to_N (-1 - z)).
Definition dec_int : parser Z := λ bs,
  '((m, arg), rest) ← read_head bs;
  if m =? 0 then Some (Z.of_N arg, rest)
  else if m =? 1 then Some ((-1 - Z.of_N arg)%Z, rest)
  else None.

Definition enc_bytes (bs : list byte) : list byte :=
  head 2 (N.of_nat (length bs)) ++ bs.
Definition dec_bytes : parser (list byte) := λ bs,
  '(n, rest) ← read_major 2 bs;
  take_exact (N.to_nat n) rest.

Definition enc_text (s : string) : list byte :=
  let bs := list_byte_of_string s in
  head 3 (N.of_nat (length bs)) ++ bs.
Definition dec_text : parser string := λ bs,
  '(n, rest) ← read_major 3 bs;
  '(s, rest') ← take_exact (N.to_nat n) rest;
  Some (string_of_list_byte s, rest').

Definition enc_bool (b : bool) : list byte := head 7 (if b then 21 else 20).
Definition dec_bool : parser bool := λ bs,
  '(n, rest) ← read_major 7 bs;
  if n =? 21 then Some (true, rest)
  else if n =? 20 then Some (false, rest)
  else None.

(** Modelled from the spec: the wire format of [Extension], which the codec
    library derives from the struct. "Extension encodes as an ordered triple
    {oid, critical, value}." *)
Definition enc_Extension (e : Extension) : list byte :=
  head 4 3 ++ enc_uint (OID e) ++ enc_bool (Critical e) ++ enc_bytes (Value e).
Definition dec_Extension : parser Extension := λ bs,
  '(n, rest) ← read_major 4 bs;
  if n =? 3 then
    '(oid, rest) ← dec_uint rest;
    '(critical, rest) ← dec_bool rest;
    '(value, rest) ← dec_bytes rest;
    Some (mkExtension oid critical value, rest)
  else None.

(** Modelled from the spec: the wire format of [[]Extension]. "Sequences
    length-prefixed", "order is preserved". *)
Definition enc_Extensions (es : list Extension) : list byte :=
  head 4 (N.of_nat (length es)) ++ mjoin (enc_Extension <$> es).
Fixpoint dec_items {A} (item : parser A) (n : nat) : parser (list A) := λ bs,
  match n with
  | O => Some ([], bs)
  | S n' =>
      '(x, rest) ← item bs;
      '(xs, rest') ← dec_items item n' rest;
      Some (x :: xs, rest')
  end.
Definition dec_Extensions : parser (list Extension) := λ bs,
  '(n, rest) ← read_major 4 bs;
  dec_items dec_Extension (N.to_nat n) rest.

(** Modelled from the spec: the wire format of [Validity]. "Validity encodes
    as an ordered pair {notBefore, notAfter}, each an integer (0 =
    unconstrained)"; a bound that is nil is unconstrained. *)
Definition enc_Validity (v : Validity) : list byte :=
  head 4 2 ++ enc_int (default 0%Z (NotBefore v)) ++ enc_int (default 0%Z (NotAfter v)).
Definition dec_Validity : parser Validity := λ bs,
  '(n, rest) ← read_major 4 bs;
  if n =? 2 then
    '(notBefore, rest) ← dec_int rest;
    '(notAfter, rest) ← dec_int rest;
    Some (mkValidity (Some notBefore) (Some notAfter), rest)
  else None.

(** Modelled from the spec: [Encode] of the canonical codec, the codec
    library applied to [Certificate]. "A Certificate encodes as an ordered
    sequence of its fields - serialNumber, issuer, validity?, subject,
    publicKey, extensions, signature", "the optional validity field omitted
    when unset". *)
Definition Encode (c : Certificate) : list byte :=
  head 4 (if Validity_ c is Some _ then 7 else 6)
  ++ enc_uint (SerialNumber c)
  ++ enc_text (Issuer c)
  ++ (if Validity_ c is Some v then enc_Validity v else [])
  ++ enc_text (Subject c)
  ++ enc_bytes (PubKey c)
  ++ enc_Extensions (Extensions c)
  ++ enc_bytes (Signature c).

(** Modelled from the spec: [Decode] of the canonical codec; it fails "when
    the input is malformed, truncated, or structurally inconsistent (e.g.,
    wrong field arity)". The decoder reads one certificate from the front of
    its input. *)
Definition Decode : parser Certificate := λ bs,
  '(n, rest) ← read_major 4 bs;
  '(serialNumber, rest) ← dec_uint rest;
  '(issuer, rest) ← dec_text rest;
  '(validity, rest) ←
    (if n =? 7 then '(v, rest') ← dec_Validity rest; Some (Some v, rest')
     else if n =? 6 then Some (None, rest)
     else None);
  '(subject, rest) ← dec_text rest;
  '(pubKey, rest) ← dec_bytes rest;
  '(extensions, rest) ← dec_Extensions rest;
  '(signature, rest) ← dec_bytes rest;
  Some (mkCertificate serialNumber issuer validity subject pubKey extensions
          signature, rest).

(** Modelled from the spec: the error kind "DecodeError (malformed wire
    bytes)" of the codec library. *)
Definition DecodeError : error := "DecodeError".

(** Modelled from the spec: the codec library as the package sees it;
    encoding a certificate does not fail. *)
Definition codec : Codec := {|
  codec_Encode c := (Encode c, None);
  codec_Decode r :=
    match Decode r with
    | Some (cert, _) => Ok cert
    | None => Err DecodeError
    end;
|}.

(** Modelled from the spec: the "valid Certificate values", the values of
    the Go types that the wire format describes. Every number and length fits
    64 bits, and a validity that is present has both bounds ("each an
    integer"). *)
Definition uint64 (n : N) : bool := n <? 2 ^ 64.
Definition int64 (z : Z) : bool := ((- 2 ^ 63 <=? z) && (z <? 2 ^ 63))%Z.
Definition len64 {A} (l : list A) : bool := uint64 (N.of_nat (length l)).

Definition valid_Validity (v : Validity) : bool :=
  match NotBefore v, NotAfter v with
  | Some notBefore, Some notAfter => int64 notBefore && int64 notAfter
  | _, _ => false
  end.

Definition valid_Extension (e : Extension) : bool :=
  uint64 (OID e) && len64 (Value e).

Definition valid_Certificate (c : Certificate) : bool :=
  uint64 (SerialNumber c)
  && len64 (list_byte_of_string (Issuer c))
  && (if Validity_ c is Some v then valid_Validity v else true)
  && len64 (list_byte_of_string (Subject c))
  && len64 (PubKey c)
  && len64 (Extensions c) && forallb valid_Extension (Extensions c)
  && len64 (Signature c).
End Wire.

(** ** Vocabulary of the properties *)

(** A time stamp whose count of seconds from year 1 is an [int64] too:
    [time.Unix] represents it without wrapping around. *)
Definition inRange (t : Time) : Prop :=
  - 2 ^ 63 ≤ t ≤ 2 ^ 63 - 1 - unixToInternal.

(** An [int64] time stamp on which [time.Unix] wraps around. *)
Definition wraps (t : Time) : Prop :=
  2 ^ 63 - 1 - unixToInternal < t ≤ 2 ^ 63 - 1.

(** The errors of the bundle loop itself: they are no error of
    [validateCertificate] nor of [Validate]. *)
Definition bundleError (e : error) : Prop :=
  e = NoLeafError ∨ e = NoTrustAnchorError ∨ e = BrokenChainError.

Section vocabulary.
Context `{Codec, Ed25519, Clock}.

(** The outcome of the check of [NotBefore] (lines 122-127) and of [NotAfter]
    (lines 129-134) on a validity that is present, as the code computes
    them. *)
Definition tooEarly (v : Validity) : bool :=
  match NotBefore v with
  | Some t => negb (t =? 0) && time_Before time_Now (time_Unix t 0)
  | None => false
  end.

Definition tooLate (v : Validity) : bool :=
  match NotAfter v with
  | Some t => negb (t =? 0) && time_After time_Now (time_Unix t 0)
  | None => false
  end.

(** The validity is present and neither check fails. *)
Definition passesTimeChecks (c : Certificate) : bool :=
  match Validity_ c with
  | Some v => negb (tooEarly v) && negb (tooLate v)
  | None => false
  end.

(** The bytes that are verified: the encoding of the certificate without its
    signature. *)
Definition signedBytes (c : Certificate) : list byte * option error :=
  Bytes (set_Signature c []).

(** The signed bytes of the certificate can be encoded, and
    [ed25519.Verify] accepts its signature over them under [pubKey] (a key
    of [PublicKeySize] bytes, then). *)
Definition signedBy (c : Certificate) (pubKey : list byte) : bool :=
  match signedBytes c with
  | (bs, None) =>
      match ed25519_Verify pubKey bs (Signature c) with
      | Ok verified => verified
      | _ => false
      end
  | (_, Some _) => false
  end.

(** The window of a certificate, as the data model has it: the clock is not
    before a bound [NotBefore] that is not zero, nor after a bound
    [NotAfter] that is not zero. *)
Definition withinWindow (v : Validity) : Prop :=
  (∀ notBefore, NotBefore v = Some notBefore → notBefore ≠ 0 →
     notBefore * 1000000000 ≤ time_Now)
  ∧ (∀ notAfter, NotAfter v = Some notAfter → notAfter ≠ 0 →
       time_Now ≤ notAfter * 1000000000).

(** The clock reads a number of seconds since the Unix epoch that is an
    [int64], and whose count from year 1 is one too. *)
Definition clockInRange : Prop :=
  - 2 ^ 63 ≤ time_Now / 1000000000 ≤ 2 ^ 63 - 1 - unixToInternal.

(** [c] is the issuer of a certificate of the bundle. *)
Definition issuesIn (certBundle : list Certificate) (c : Certificate) : bool :=
  existsb (λ d, String.eqb (Issuer d) (Subject c)) certBundle.
End vocabulary.

(** ** Concrete values, to run the definitions *)

Module Example.
Fixpoint bytes_eqb (a b : list byte) : bool :=
  match a, b with
  | [], [] => true
  | x :: a', y :: b' => Byte.eqb x y && bytes_eqb a' b'
  | _, _ => false
  end.

(** A stand-in for the signature scheme: the signature of a message is the key
    followed by the message, and the public key is the signing key. *)
Definition ed25519 : Ed25519 := {|
  ed25519_verify publicKey message sig := bytes_eqb sig (publicKey ++ message);
|}.

Definition clock : Clock := {| time_Now := time_Unix 1600000000 500 |}.

Definition sign (key : list byte) (c : Certificate) : Certificate :=
  set_Signature c (key ++ (@Bytes Wire.codec (set_Signature c [])).1).

Definition rootKey : list byte := replicate 32 x01.
Definition intermediateKey : list byte := replicate 32 x02.
Definition leafKey : list byte := replicate 32 x03.

Definition window : option Validity :=
  Some (mkValidity (Some 1500000000) (Some 1700000000)).

Definition root : Certificate :=
  sign rootKey (mkCertificate 1 "root" window "root" rootKey [] []).

Definition intermediate : Certificate :=
  sign rootKey
    (mkCertificate 2 "root" window "intermediate" intermediateKey [] []).

Definition leaf : Certificate :=
  sign intermediateKey
    (mkCertificate 3 "intermediate" (Some (mkValidity (Some 0) None)) "leaf"
       leafKey [mkExtension 7 true [x0a; x0b]] []).

(** A leaf issued by the root directly. *)
Definition direct : Certificate :=
  sign rootKey (mkCertificate 4 "root" window "direct" leafKey [] []).

(** Certificates outside their window, and one without validity. *)
Definition early : Certificate :=
  sign rootKey
    (mkCertificate 5 "root" (Some (mkValidity (Some 1650000000) (Some 1550000000)))
       "early" leafKey [] []).

Definition expired : Certificate :=
  sign rootKey
    (mkCertificate 6 "root" (Some (mkValidity (Some 1500000000) (Some 1550000000)))
       "expired" leafKey [] []).

Definition unbounded : Certificate :=
  sign rootKey (mkCertificate 7 "root" None "unbounded" leafKey [] []).

(** A certificate that nobody has signed and that has no validity, under a
    name that no pool knows, and a certificate signed with its key. *)
Definition stranger : Certificate :=
  mkCertificate 8 "nobody" None "stranger" leafKey [] [].

Definition guest : Certificate :=
  sign leafKey (mkCertificate 9 "stranger" window "guest" leafKey [] []).

(** The largest time stamp. *)
Definition MaxInt64 : Time := 9223372036854775807.

(** A leaf that is to be valid for ever, and a certificate that is to be
    valid at the end of times only. *)
Definition forever : Certificate :=
  sign intermediateKey
    (mkCertificate 11 "intermediate" (Some (mkValidity (Some 1500000000) (Some MaxInt64)))
       "forever" leafKey [] []).

Definition endOfTimes : Certificate :=
  sign rootKey
    (mkCertificate 12 "root" (Some (mkValidity (Some MaxInt64) None))
       "endOfTimes" leafKey [] []).

(** A key that is one byte short. *)
Definition shortKey : list byte := replicate 31 x01.

(** A certificate whose last second is the second of the clock. *)
Definition lastSecond : Certificate :=
  sign rootKey
    (mkCertificate 10 "root" (Some (mkValidity (Some 1500000000) (Some 1600000000)))
       "lastSecond" leafKey [] []).
End Example.

(** * Properties *)

(** ** Copy *)

Lemma Copy_present c v : Validity_ c = Some v → Copy c = Ok c.
Proof.
  intros Hv. destruct c as [sn iss val sub pk exts sig]; simpl in Hv; subst val.
  destruct v; reflexivity.
Qed.

Lemma Copy_absent c : Validity_ c = None → Copy c = Panic.
Proof. intros Hv. unfold Copy. rewrite Hv. reflexivity. Qed.

Lemma Copy_Ok_inv c cert : Copy c = Ok cert → cert = c ∧ is_Some (Validity_ c).
Proof.
  destruct (Validity_ c) as [v|] eqn:Hv.
  - rewrite (Copy_present c v Hv). intros [= <-]. eauto.
  - rewrite (Copy_absent c Hv). discriminate.
Qed.

(** ** IsZero and StdTime *)

Lemma IsZero_true t : IsZero t = true ↔ t = None ∨ t = Some 0.
Proof.
  destruct t as [t'|]; simpl.
  - rewrite Z.eqb_eq. split; [intros ->; auto | intros [? | [= ->]]; done].
  - split; auto.
Qed.

Lemma IsZero_false t : IsZero t = false ↔ ∃ t', t = Some t' ∧ t' ≠ 0.
Proof.
  destruct t as [t'|]; simpl.
  - rewrite Z.eqb_neq. split; [eauto | intros (? & [= <-] & ?); done].
  - split; [discriminate | intros (? & ? & ?); discriminate].
Qed.

(** ** Seconds that wrap around *)

Lemma wrap64_small z : - 2 ^ 63 ≤ z < 2 ^ 63 → wrap64 z = z.
Proof. intros Hz. unfold wrap64. rewrite Z.mod_small; lia. Qed.

Lemma wrap64_over z : 2 ^ 63 ≤ z < 2 ^ 63 + 2 ^ 64 → wrap64 z = z - 2 ^ 64.
Proof.
  intros Hz. unfold wrap64.
  replace (z + 2 ^ 63) with (z + 2 ^ 63 - 2 ^ 64 + 1 * 2 ^ 64) by lia.
  rewrite Z.mod_add by lia. rewrite Z.mod_small; lia.
Qed.

Lemma time_sec_Unix t : time_sec (time_Unix t 0) = wrap64 (t + unixToInternal).
Proof. unfold time_sec, time_Unix. by rewrite Z.add_0_r, Z.div_mul. Qed.

Lemma time_nsec_Unix t : time_nsec (time_Unix t 0) = 0.
Proof. unfold time_nsec, time_Unix. by rewrite Z.add_0_r, Z.mod_mul. Qed.

Lemma time_sec_in_range now :
  inRange (now / 1000000000) → time_sec now = now / 1000000000 + unixToInternal.
Proof.
  unfold inRange, time_sec, unixToInternal. intros Hs. rewrite wrap64_small; lia.
Qed.

(** On a time stamp that [time.Unix] represents, [Before] and [After] compare
    the instants. *)
Lemma time_Before_in_range now t :
  inRange (now / 1000000000) → inRange t →
  time_Before now (time_Unix t 0) = (now <? t * 1000000000).
Proof.
  intros Hnow Ht. unfold time_Before.
  rewrite time_sec_Unix, time_nsec_Unix, (time_sec_in_range now Hnow).
  unfold inRange, unixToInternal, time_nsec in *. rewrite wrap64_small by lia.
  pose proof (Z.div_mod now 1000000000 ltac:(lia)).
  pose proof (Z.mod_pos_bound now 1000000000 ltac:(lia)).
  destruct (Z.ltb_spec now (t * 1000000000)),
    (Z.ltb_spec (now / 1000000000 + 62135596800) (t + 62135596800)),
    (Z.eqb_spec (now / 1000000000 + 62135596800) (t + 62135596800)),
    (Z.ltb_spec (now mod 1000000000) 0); simpl; try done; lia.
Qed.

Lemma time_After_in_range now t :
  inRange (now / 1000000000) → inRange t →
  time_After now (time_Unix t 0) = (t * 1000000000 <? now).
Proof.
  intros Hnow Ht. unfold time_After.
  rewrite time_sec_Unix, time_nsec_Unix, (time_sec_in_range now Hnow).
  unfold inRange, unixToInternal, time_nsec in *. rewrite wrap64_small by lia.
  pose proof (Z.div_mod now 1000000000 ltac:(lia)).
  pose proof (Z.mod_pos_bound now 1000000000 ltac:(lia)).
  destruct (Z.ltb_spec (t * 1000000000) now),
    (Z.ltb_spec (t + 62135596800) (now / 1000000000 + 62135596800)),
    (Z.eqb_spec (now / 1000000000 + 62135596800) (t + 62135596800)),
    (Z.ltb_spec 0 (now mod 1000000000)); simpl; try done; lia.
Qed.

(** On a time stamp on which [time.Unix] wraps around, the time is before
    every reading of the clock. *)
Lemma time_sec_wraps now t :
  inRange (now / 1000000000) → wraps t →
  time_sec (time_Unix t 0) < time_sec now.
Proof.
  intros Hnow Ht. rewrite time_sec_Unix, (time_sec_in_range now Hnow).
  unfold inRange, wraps, unixToInternal in *. rewrite wrap64_over; lia.
Qed.

Lemma time_Before_wraps now t :
  inRange (now / 1000000000) → wraps t →
  time_Before now (time_Unix t 0) = false.
Proof.
  intros Hnow Ht. pose proof (time_sec_wraps now t Hnow Ht). unfold time_Before.
  destruct (Z.ltb_spec (time_sec now) (time_sec (time_Unix t 0))),
    (Z.eqb_spec (time_sec now) (time_sec (time_Unix t 0))); simpl; try done; lia.
Qed.

Lemma time_After_wraps now t :
  inRange (now / 1000000000) → wraps t →
  time_After now (time_Unix t 0) = true.
Proof.
  intros Hnow Ht. pose proof (time_sec_wraps now t Hnow Ht). unfold time_After.
  destruct (Z.ltb_spec (time_sec (time_Unix t 0)) (time_sec now)); simpl; [done|lia].
Qed.

(** ** validateCertificate, step by step *)

Section validateCertificate_facts.
Context `{Codec, Ed25519, Clock}.

Lemma ed25519_Verify_Ok pubKey message sig verified :
  ed25519_Verify pubKey message sig = Ok verified
  ↔ length pubKey = PublicKeySize ∧ ed25519_verify pubKey message sig = verified.
Proof.
  unfold ed25519_Verify. case_decide; [|by split; [|intros [? _]]].
  split; [by intros [= <-]|by intros [_ ->]].
Qed.

Lemma ed25519_Verify_Panic pubKey message sig :
  ed25519_Verify pubKey message sig = Panic ↔ length pubKey ≠ PublicKeySize.
Proof. unfold ed25519_Verify. by case_decide. Qed.

Lemma ed25519_Verify_not_Err pubKey message sig e :
  ed25519_Verify pubKey message sig ≠ Err e.
Proof. unfold ed25519_Verify. by case_decide. Qed.

Lemma validateCertificate_present c v pubKey :
  Validity_ c = Some v →
  validateCertificate c pubKey =
    if tooEarly v then Err NotYetValidError
    else if tooLate v then Err ExpiredError
    else if (signedBytes c).2 is Some _ then Err EncodeError
    else match ed25519_Verify pubKey (signedBytes c).1 (Signature c) with
         | Ok true => Ok tt
         | Ok false => Err BadSignatureError
         | Err e => Err e
         | Panic => Panic
         end.
Proof.
  intros Hv. unfold validateCertificate, tooEarly, tooLate, signedBytes.
  rewrite (Copy_present c v Hv). simpl. rewrite Hv. simpl.
  destruct (NotBefore v) as [nb|]; simpl; [destruct (nb =? 0); simpl|];
    try (destruct (time_Before time_Now _); simpl; [done|]);
    (destruct (NotAfter v) as [na|]; simpl; [destruct (na =? 0); simpl|]);
    try (destruct (time_After time_Now _); simpl; [done|]);
    (destruct (Bytes _) as [bs [e|]]; simpl; [done|]);
    by destruct (ed25519_Verify _ _ _) as [[]| |].
Qed.

Lemma validateCertificate_absent c pubKey :
  Validity_ c = None → validateCertificate c pubKey = Panic.
Proof. intros Hv. unfold validateCertificate. by rewrite (Copy_absent c Hv). Qed.
End validateCertificate_facts.

(** ** The single-certificate validator *)

Section validateCertificate_properties.
Context `{Codec, Ed25519, Clock}.

(** C1. Once [Copy] has returned its copy and the time checks have passed,
    [validateCertificate] verifies the signature recorded from the
    certificate over the bytes that the codec writes for the copy with an
    empty signature - a copy that has the fields of the caller's
    certificate - and, when the codec reports no error, fails with
    BadSignatureError exactly when [ed25519.Verify] answers false under
    [pubKey], succeeds exactly when it answers true, and panics exactly when
    it panics. *)
Theorem validateCertificate_verifies_signed_bytes c cert pubKey :
  Copy c = Ok cert →
  validateCertificate c pubKey ≠ Err NotYetValidError →
  validateCertificate c pubKey ≠ Err ExpiredError →
  let cleared :=
    {| SerialNumber := SerialNumber cert;
       Issuer := Issuer cert;
       Validity_ := Validity_ cert;
       Subject := Subject cert;
       PubKey := PubKey cert;
       Extensions := Extensions cert;
       Signature := [] |} in
  (codec_Encode cleared).2 = None →
  cert = c
  ∧ (validateCertificate c pubKey = Err BadSignatureError
     ↔ ed25519_Verify pubKey (codec_Encode cleared).1 (Signature c) = Ok false)
  ∧ (validateCertificate c pubKey = Ok tt
     ↔ ed25519_Verify pubKey (codec_Encode cleared).1 (Signature c) = Ok true)
  ∧ (validateCertificate c pubKey = Panic
     ↔ ed25519_Verify pubKey (codec_Encode cleared).1 (Signature c) = Panic).
Proof.
  intros [-> [v Hv]]%Copy_Ok_inv.
  rewrite (validateCertificate_present c v pubKey Hv).
  unfold signedBytes, Bytes, Serialize, set_Signature.
  destruct (tooEarly v); [done|]. destruct (tooLate v); [done|].
  intros _ _. cbv zeta.
  destruct (codec_Encode _) as [bs err]. simpl. intros ->. split; [done|].
  destruct (ed25519_Verify pubKey bs (Signature c)) as [[]|e|] eqn:Hverify;
    [| |by apply ed25519_Verify_not_Err in Hverify|]; repeat split; done.
Qed.

(** C10. [IsZero] holds of nil and of a pointer to 0, and of nothing else; on
    a validity that is present, a bound of which [IsZero] holds never fails
    its time check, whatever the clock says, and no bound is dereferenced
    when it is nil: the call does not panic in its time checks - if it
    panics, then in [ed25519.Verify], on a key that is not of
    [PublicKeySize] bytes. *)
Theorem IsZero_bound_unconstrained :
  (∀ t, IsZero t = true ↔ t = None ∨ t = Some 0)
  ∧ (∀ c v pubKey, Validity_ c = Some v →
       (validateCertificate c pubKey = Panic →
        tooEarly v = false ∧ tooLate v = false
        ∧ length pubKey ≠ PublicKeySize)
       ∧ (IsZero (NotBefore v) = true →
          validateCertificate c pubKey ≠ Err NotYetValidError)
       ∧ (IsZero (NotAfter v) = true →
          validateCertificate c pubKey ≠ Err ExpiredError)).
Proof.
  split; [apply IsZero_true|]. intros c v pubKey Hv.
  rewrite (validateCertificate_present c v pubKey Hv). split; [|split].
  - destruct (tooEarly v); [done|]. destruct (tooLate v); [done|].
    destruct (signedBytes c) as [bs [e|]]; simpl; [done|].
    destruct (ed25519_Verify pubKey bs (Signature c)) as [[]|e|] eqn:Hverify;
      [done..|].
    intros _. by apply ed25519_Verify_Panic in Hverify.
  - unfold tooEarly, tooLate.
    intros [-> | ->]%IsZero_true; simpl; repeat case_match; try done;
      by exfalso; eapply ed25519_Verify_not_Err.
  - unfold tooEarly, tooLate.
    intros [-> | ->]%IsZero_true; simpl; repeat case_match; try done;
      by exfalso; eapply ed25519_Verify_not_Err.
Qed.

(** C6, on a certificate without validity: [Copy] dereferences the nil
    [Validity], and the call panics before any check. *)
Theorem validateCertificate_no_validity_panics pubKey :
  validateCertificate Example.unbounded pubKey = Panic.
Proof. reflexivity. Qed.

(** With both bounds zero (or nil) the time checks pass, and the outcome is
    that of the encoding and of the signature. *)
Lemma validateCertificate_zero_bounds c v pubKey :
  Validity_ c = Some v →
  IsZero (NotBefore v) = true → IsZero (NotAfter v) = true →
  validateCertificate c pubKey =
    if (signedBytes c).2 is Some _ then Err EncodeError
    else match ed25519_Verify pubKey (signedBytes c).1 (Signature c) with
         | Ok true => Ok tt
         | Ok false => Err BadSignatureError
         | Err e => Err e
         | Panic => Panic
         end.
Proof.
  intros Hv Hnb Hna. rewrite (validateCertificate_present c v pubKey Hv).
  unfold tooEarly, tooLate.
  apply IsZero_true in Hnb as [-> | ->], Hna as [-> | ->]; done.
Qed.

Lemma validateCertificate_Ok c pubKey :
  passesTimeChecks c = true → signedBy c pubKey = true →
  validateCertificate c pubKey = Ok tt.
Proof.
  unfold passesTimeChecks, signedBy. destruct (Validity_ c) as [v|] eqn:Hv; [|done].
  rewrite (validateCertificate_present c v pubKey Hv).
  intros [->%negb_true_iff ->%negb_true_iff]%andb_true_iff.
  destruct (signedBytes c) as [bs [e|]]; simpl; [done|].
  by destruct (ed25519_Verify pubKey bs (Signature c)) as [[]| |].
Qed.

(** The errors of [validateCertificate] are these four. *)
Lemma validateCertificate_Err c pubKey e :
  validateCertificate c pubKey = Err e →
  e ∈ [NotYetValidError; ExpiredError; EncodeError; BadSignatureError].
Proof.
  destruct (Validity_ c) as [v|] eqn:Hv.
  - rewrite (validateCertificate_present c v pubKey Hv).
    pose proof (ed25519_Verify_not_Err pubKey (signedBytes c).1 (Signature c)).
    repeat case_match; try done; intros [= <-]; set_solver.
  - by rewrite (validateCertificate_absent c pubKey Hv).
Qed.

(** The time checks on bounds that [time.Unix] represents: a clock before a
    non-zero [NotBefore] fails with NotYetValidError, a clock after a
    non-zero [NotAfter] with ExpiredError unless the first check has
    failed. *)
Lemma validateCertificate_time_window_in_range c v pubKey :
  Validity_ c = Some v → clockInRange →
  (∀ notBefore, NotBefore v = Some notBefore → notBefore ≠ 0 →
     inRange notBefore → time_Now < notBefore * 1000000000 →
     validateCertificate c pubKey = Err NotYetValidError)
  ∧ (∀ notAfter, NotAfter v = Some notAfter → notAfter ≠ 0 →
     inRange notAfter → notAfter * 1000000000 < time_Now →
     validateCertificate c pubKey ≠ Err NotYetValidError →
     validateCertificate c pubKey = Err ExpiredError).
Proof.
  intros Hv Hclock. rewrite (validateCertificate_present c v pubKey Hv).
  unfold tooEarly, tooLate. split.
  - intros nb -> Hnb%Z.eqb_neq Hr Hlt. rewrite Hnb, time_Before_in_range by done.
    by apply Z.ltb_lt in Hlt as ->.
  - intros na -> Hna%Z.eqb_neq Hr Hlt. rewrite Hna, time_After_in_range by done.
    apply Z.ltb_lt in Hlt as ->. simpl.
    by destruct (NotBefore v) as [nb|]; [destruct (negb _ && _)|].
Qed.
End validateCertificate_properties.

(** ** The maps and the classification of a bundle *)

Lemma elem_of_snoc_last {A} (l : list A) x : x ∈ l ++ [x].
Proof. apply elem_of_app. right. by apply list_elem_of_singleton. Qed.

Lemma elem_of_snoc_init {A} (l : list A) x y : x ∈ l → x ∈ l ++ [y].
Proof. intros Hx. apply elem_of_app. by left. Qed.

#[local] Hint Resolve elem_of_snoc_last elem_of_snoc_init : core.

Lemma bundleMaps_snoc certBundle c :
  bundleMaps (certBundle ++ [c]) =
    (<[Issuer c := c]> (bundleMaps certBundle).1,
     <[Subject c := c]> (bundleMaps certBundle).2).
Proof.
  unfold bundleMaps. rewrite foldl_app. simpl.
  by destruct (foldl _ _ certBundle).
Qed.

Lemma issuerMap_is_Some certBundle k :
  is_Some ((bundleMaps certBundle).1 !! k) ↔ ∃ d, d ∈ certBundle ∧ Issuer d = k.
Proof.
  induction certBundle as [|c l IH] using rev_ind.
  - simpl. rewrite lookup_empty. split; [by intros [? ?]|]. intros (d & []%elem_of_nil & _).
  - rewrite bundleMaps_snoc. simpl. rewrite lookup_insert.
    case_decide as Hk.
    + split; [|eauto]. intros _. exists c. auto.
    + rewrite IH. split; intros (d & Hd & Hi).
      * exists d. auto.
      * exists d. split; [|done].
        apply elem_of_app in Hd as [Hd | ->%list_elem_of_singleton]; done.
Qed.

Lemma subjectMap_None certBundle k :
  (bundleMaps certBundle).2 !! k = None ↔ ∀ d, d ∈ certBundle → Subject d ≠ k.
Proof.
  induction certBundle as [|c l IH] using rev_ind.
  - simpl. rewrite lookup_empty. split; [|done]. by intros _ d ?%elem_of_nil.
  - rewrite bundleMaps_snoc. simpl. rewrite lookup_insert.
    case_decide as Hk.
    + split; [done|]. intros Hall. destruct (Hall c); auto.
    + rewrite IH. split; intros Hall d Hd.
      * apply elem_of_app in Hd as [Hd | ->%list_elem_of_singleton]; auto.
      * apply Hall. auto.
Qed.

Lemma subjectMap_Some certBundle k c :
  (bundleMaps certBundle).2 !! k = Some c → c ∈ certBundle ∧ Subject c = k.
Proof.
  induction certBundle as [|c' l IH] using rev_ind.
  - simpl. by rewrite lookup_empty.
  - rewrite bundleMaps_snoc. simpl. rewrite lookup_insert.
    case_decide as Hk.
    + intros [= <-]. auto.
    + intros [Hc Hs]%IH. auto.
Qed.

Lemma issuesIn_true certBundle c :
  issuesIn certBundle c = true ↔ ∃ d, d ∈ certBundle ∧ Issuer d = Subject c.
Proof.
  unfold issuesIn. rewrite existsb_exists.
  split; intros (d & Hd & Hi); exists d.
  - by rewrite list_elem_of_In, <-String.eqb_eq.
  - by rewrite <-list_elem_of_In, String.eqb_eq.
Qed.

Lemma issuesIn_issuerMap certBundle c :
  issuesIn certBundle c ↔ is_Some ((bundleMaps certBundle).1 !! Subject c).
Proof. by rewrite Is_true_true, issuesIn_true, issuerMap_is_Some. Qed.

Lemma classify_snoc issuerMap certBundle c :
  classify issuerMap (certBundle ++ [c]) =
    match issuerMap !! Subject c with
    | Some _ =>
        ((classify issuerMap certBundle).1 ++ [c], (classify issuerMap certBundle).2)
    | None => ((classify issuerMap certBundle).1, Some c)
    end.
Proof.
  unfold classify. rewrite foldl_app. simpl.
  by destruct (foldl _ _ certBundle).
Qed.

Lemma classify_filter (issuerMap : gmap string Certificate) certBundle :
  classify issuerMap certBundle =
    (filter (λ c, is_Some (issuerMap !! Subject c)) certBundle,
     last (filter (λ c, ¬ is_Some (issuerMap !! Subject c)) certBundle)).
Proof.
  induction certBundle as [|c l IH] using rev_ind; [done|].
  rewrite classify_snoc, IH, !filter_app, !filter_cons, !filter_nil. simpl.
  destruct (issuerMap !! Subject c) as [d|] eqn:Hd.
  - rewrite decide_True by eauto. rewrite decide_False by (intros Hn; apply Hn; eauto).
    by rewrite app_nil_r.
  - rewrite decide_False by (by intros [? ?]). rewrite decide_True by (by intros [? ?]).
    by rewrite app_nil_r, last_snoc.
Qed.

(** ** The trust pool *)

Lemma NewCertPool_snoc rootCerts c :
  NewCertPool (rootCerts ++ [c]) = <[Subject c := Some c]> (NewCertPool rootCerts).
Proof. unfold NewCertPool. by rewrite foldl_app. Qed.

(** The last root of a name is the one the pool holds. *)
Lemma NewCertPool_last rootCerts c :
  NewCertPool (rootCerts ++ [c]) !! Subject c = Some (Some c).
Proof. by rewrite NewCertPool_snoc, lookup_insert_eq. Qed.

(** A pool made by [NewCertPool] holds no nil. *)
Lemma NewCertPool_not_nil rootCerts k : NewCertPool rootCerts !! k ≠ Some None.
Proof.
  induction rootCerts as [|c l IH] using rev_ind.
  - unfold NewCertPool. simpl. by rewrite lookup_empty.
  - rewrite NewCertPool_snoc, lookup_insert. by case_decide.
Qed.

Section pool_properties.
Context `{Codec, Ed25519, Clock}.

Lemma validateCertificate_Ok_iff c pubKey :
  validateCertificate c pubKey = Ok tt
  ↔ passesTimeChecks c = true ∧ signedBy c pubKey = true.
Proof.
  split; [|intros []; by apply validateCertificate_Ok].
  unfold passesTimeChecks, signedBy. destruct (Validity_ c) as [v|] eqn:Hv.
  - rewrite (validateCertificate_present c v pubKey Hv).
    destruct (tooEarly v); [done|]. destruct (tooLate v); [done|].
    destruct (signedBytes c) as [bs [e|]]; simpl; [done|].
    by destruct (ed25519_Verify pubKey bs (Signature c)) as [[]| |].
  - by rewrite (validateCertificate_absent c pubKey Hv).
Qed.

Lemma validateCertificate_not_unknown c pubKey :
  validateCertificate c pubKey ≠ Err UnknownIssuerError.
Proof.
  intros He%validateCertificate_Err.
  repeat (apply elem_of_cons in He as [He|He]; [discriminate He|]).
  by apply elem_of_nil in He.
Qed.

(** A clock after a non-zero [NotAfter] is after it for the code too. *)
Lemma tooLate_expired v notAfter :
  clockInRange → NotAfter v = Some notAfter → notAfter ≠ 0 →
  - 2 ^ 63 ≤ notAfter < 2 ^ 63 → notAfter * 1000000000 < time_Now →
  tooLate v = true.
Proof.
  intros Hclock Hna Hnz%Z.eqb_neq Hint Hlt. unfold tooLate. rewrite Hna, Hnz. simpl.
  destruct (decide (notAfter ≤ 2 ^ 63 - 1 - unixToInternal)).
  - rewrite time_After_in_range; [by apply Z.ltb_lt|done|].
    unfold inRange. lia.
  - apply time_After_wraps; [done|]. unfold wraps. lia.
Qed.

(** C4, as the code has it. [Validate] fails with UnknownIssuerError exactly
    when the issuer of the certificate is not a key of the pool or the pool
    holds nil for it. Otherwise the certificate of the issuer is validated
    against its own public key first, and an error of that check is the
    error of [Validate], under a prefix; only when it passes is the
    certificate validated against the public key of the issuer. So an issuer
    in the pool whose [NotAfter] the clock has passed makes [Validate] fail
    with an error, one whose signature does not verify under its own key
    makes it fail, and [Validate] succeeds only if both validations succeed. *)
Theorem Validate_unknown_issuer_or_anchor_first (pool : CertPool) cert :
  (Validate pool cert = Err UnknownIssuerError
   ↔ pool !! Issuer cert = None ∨ pool !! Issuer cert = Some None)
  ∧ (∀ issuerCert, pool !! Issuer cert = Some (Some issuerCert) →
       (∀ err, validateCertificate issuerCert (PubKey issuerCert) = Err err →
          Validate pool cert =
            Err ("Error validating issuing root certificate: " +:+ err))
       ∧ (validateCertificate issuerCert (PubKey issuerCert) = Ok tt →
          Validate pool cert = validateCertificate cert (PubKey issuerCert))
       ∧ (∀ v notAfter, Validity_ issuerCert = Some v →
            NotAfter v = Some notAfter → notAfter ≠ 0 →
            - 2 ^ 63 ≤ notAfter < 2 ^ 63 →
            clockInRange → notAfter * 1000000000 < time_Now →
            ∃ err, Validate pool cert =
                     Err ("Error validating issuing root certificate: " +:+ err))
       ∧ (signedBy issuerCert (PubKey issuerCert) = false →
          Validate pool cert ≠ Ok tt))
  ∧ (Validate pool cert = Ok tt →
       ∃ issuerCert, pool !! Issuer cert = Some (Some issuerCert)
         ∧ validateCertificate issuerCert (PubKey issuerCert) = Ok tt
         ∧ validateCertificate cert (PubKey issuerCert) = Ok tt).
Proof.
  unfold Validate. destruct (pool !! Issuer cert) as [[issuerCert|]|] eqn:Hp.
  - split; [|split].
    + split; [|by intros [|]].
      destruct (validateCertificate issuerCert (PubKey issuerCert)) as [[]| |] eqn:Hi;
        [|simpl; done|done].
      intros []%validateCertificate_not_unknown.
    + intros ? [= <-]. split; [by intros err ->|]. split; [by intros ->|]. split.
      * intros v na Hv Hna Hnz Hint Hclock Hlt.
        pose proof (tooLate_expired v na Hclock Hna Hnz Hint Hlt) as Hlate.
        rewrite (validateCertificate_present issuerCert v _ Hv), Hlate.
        destruct (tooEarly v); eauto.
      * intros Hsig.
        destruct (validateCertificate issuerCert (PubKey issuerCert))
          as [[]| |] eqn:Hi; [|done..].
        apply validateCertificate_Ok_iff in Hi as [_ ?]. congruence.
    + destruct (validateCertificate issuerCert (PubKey issuerCert)) as [[]| |] eqn:Hi;
        [|done..].
      intros Hc. by exists issuerCert.
  - split; [|split]; [split; auto|done..].
  - split; [|split]; [split; auto|done..].
Qed.
End pool_properties.

(** C4 with "exactly when the issuer is not a key of the pool" fails on a
    pool that holds nil under the name of the issuer: the name is a key of
    the pool, and [Validate] answers UnknownIssuerError. *)
Lemma Validate_nil_entry_is_unknown_issuer :
  ¬ (∀ (pool : CertPool) cert,
       @Validate Wire.codec Example.ed25519 Example.clock pool cert
         = Err UnknownIssuerError
       ↔ pool !! Issuer cert = None).
Proof.
  intros Hclaim.
  destruct (Hclaim {["root" := None]} Example.direct) as [Hkey _].
  by specialize (Hkey eq_refl).
Qed.

(** ** Bundles *)

Lemma filter_none {A} (P : A → Prop) `{∀ x, Decision (P x)} (l : list A) :
  (∀ x, x ∈ l → ¬ P x) → filter P l = [].
Proof.
  induction l as [|x l IH]; intros Hall; [done|].
  rewrite filter_cons, decide_False by (apply Hall; left).
  apply IH. intros y Hy. apply Hall. by right.
Qed.

Section bundle_properties.
Context `{Codec, Ed25519, Clock}.

Lemma classify_issuesIn certBundle :
  classify (bundleMaps certBundle).1 certBundle =
    (filter (λ c, issuesIn certBundle c) certBundle,
     last (filter (λ c, ¬ issuesIn certBundle c) certBundle)).
Proof.
  rewrite classify_filter. f_equal; [|f_equal]; apply list_filter_iff; intros c.
  - by rewrite issuesIn_issuerMap.
  - by rewrite issuesIn_issuerMap.
Qed.

Lemma ValidateBundle_classified certBundle (pool : CertPool) :
  ValidateBundle pool certBundle =
    match last (filter (λ c, ¬ issuesIn certBundle c) certBundle) with
    | None => Err NoLeafError
    | Some clientCert =>
        match (bundleMaps certBundle).2 !! Issuer clientCert with
        | Some clientIssuer =>
            match validateCertificate clientCert (PubKey clientIssuer) with
            | Err err => Err err
            | Panic => Panic
            | Ok _ =>
                chainTopCert ← validateChain (bundleMaps certBundle).2
                  (filter (λ c, issuesIn certBundle c) certBundle) None;
                match chainTopCert with
                | None => Err NoTrustAnchorError
                | Some chainTopCert =>
                    match Validate pool chainTopCert with
                    | Err err => Err err
                    | Panic => Panic
                    | Ok _ => Ok clientCert
                    end
                end
            end
        | None =>
            match Validate pool clientCert with
            | Ok _ => Ok clientCert
            | Err err =>
                Err ("No issuer for the client certificate was found in the intermediate certificates: " +:+ err)
            | Panic => Panic
            end
        end
    end.
Proof.
  unfold ValidateBundle.
  pose proof (classify_issuesIn certBundle) as Hc.
  destruct (bundleMaps certBundle) as [issuerMap subjectMap]. simpl in Hc.
  by rewrite Hc.
Qed.

(** C8. The intermediates are the certificates of the bundle whose subject is
    the issuer of a certificate of the bundle, in bundle order; the others are
    the candidate leaves, of which the last is kept; and when every
    certificate is an intermediate, [ValidateBundle] fails with NoLeafError,
    whatever the pool, the signatures and the validity of the certificates
    are. *)
Theorem ValidateBundle_classifies_by_issuer certBundle :
  (∀ c, issuesIn certBundle c ↔ ∃ d, d ∈ certBundle ∧ Issuer d = Subject c)
  ∧ classify (bundleMaps certBundle).1 certBundle =
      (filter (λ c, issuesIn certBundle c) certBundle,
       last (filter (λ c, ¬ issuesIn certBundle c) certBundle))
  ∧ ((∀ c, c ∈ certBundle → issuesIn certBundle c) →
     ∀ pool : CertPool, ValidateBundle pool certBundle = Err NoLeafError).
Proof.
  split; [|split].
  - intros c. by rewrite Is_true_true, issuesIn_true.
  - apply classify_issuesIn.
  - intros Hall pool. rewrite ValidateBundle_classified.
    rewrite filter_none; [done|]. intros c Hc Hn. by apply Hn, Hall.
Qed.

(** C7. When no certificate of the bundle has the issuer of the leaf as its
    subject, the outcome of [ValidateBundle] is the outcome of validating the
    leaf against the pool: the leaf when that succeeds, and its error under a
    prefix when it fails; the intermediates are not looked at. So a bundle of
    one certificate that is not its own issuer and that the pool validates
    yields that certificate. *)
Theorem ValidateBundle_falls_back_to_pool (pool : CertPool) :
  (∀ certBundle clientCert,
     last (filter (λ c, ¬ issuesIn certBundle c) certBundle) = Some clientCert →
     (∀ c, c ∈ certBundle → Subject c ≠ Issuer clientCert) →
     ValidateBundle pool certBundle =
       match Validate pool clientCert with
       | Ok _ => Ok clientCert
       | Err err =>
           Err ("No issuer for the client certificate was found in the intermediate certificates: " +:+ err)
       | Panic => Panic
       end)
  ∧ (∀ L, Issuer L ≠ Subject L → Validate pool L = Ok tt →
       ValidateBundle pool [L] = Ok L).
Proof.
  assert (∀ certBundle clientCert,
     last (filter (λ c, ¬ issuesIn certBundle c) certBundle) = Some clientCert →
     (∀ c, c ∈ certBundle → Subject c ≠ Issuer clientCert) →
     ValidateBundle pool certBundle =
       match Validate pool clientCert with
       | Ok _ => Ok clientCert
       | Err err =>
           Err ("No issuer for the client certificate was found in the intermediate certificates: " +:+ err)
       | Panic => Panic
       end) as Hgen.
  { intros certBundle clientCert Hleaf Hnone.
    rewrite ValidateBundle_classified, Hleaf.
    by apply subjectMap_None in Hnone as ->. }
  split; [done|]. intros L Hself Hok.
  rewrite (Hgen [L] L), Hok; [done| |].
  - rewrite filter_cons, filter_nil. rewrite decide_True; [done|].
    intros (d & ->%list_elem_of_singleton & Hd)%Is_true_true%issuesIn_true. done.
  - by intros c ->%list_elem_of_singleton.
Qed.
End bundle_properties.

Section chain_properties.
Context `{Codec, Ed25519, Clock}.

(** The chain of three levels, through the validations it is made of: a root
    [R] that the pool holds under its subject and that validates under its
    own key, an intermediate [I] issued by [R] that validates under the key
    of [R], a leaf [L] issued by [I] that validates under the key of [I],
    three subjects. On the bundle of [I] and [L], in either order,
    [ValidateBundle] returns [L]. *)
Lemma ValidateBundle_three_levels_validated (pool : CertPool) R I L certBundle :
  pool !! Subject R = Some (Some R) →
  Issuer I = Subject R → Issuer L = Subject I →
  Subject I ≠ Subject R → Subject L ≠ Subject R → Subject L ≠ Subject I →
  validateCertificate R (PubKey R) = Ok tt →
  validateCertificate I (PubKey R) = Ok tt →
  validateCertificate L (PubKey I) = Ok tt →
  certBundle = [I; L] ∨ certBundle = [L; I] →
  classify (bundleMaps certBundle).1 certBundle = ([I], Some L)
  ∧ (bundleMaps certBundle).2 !! Issuer L = Some I
  ∧ validateChain (bundleMaps certBundle).2 [I] None = Ok (Some I)
  ∧ Validate pool I = Ok tt
  ∧ ValidateBundle pool certBundle = Ok L.
Proof.
  intros Hpool HI HL HIR HLR HLI HvR HvI HvL Hbundle.
  assert (Validate pool I = Ok tt) as HvP.
  { unfold Validate. by rewrite HI, Hpool, HvR. }
  assert (classify (bundleMaps certBundle).1 certBundle = ([I], Some L)) as Hcl.
  { destruct Hbundle as [-> | ->]; unfold classify, bundleMaps; simpl;
      rewrite HI, HL; by simplify_map_eq. }
  assert ((bundleMaps certBundle).2 !! Issuer L = Some I) as HsL.
  { destruct Hbundle as [-> | ->]; unfold bundleMaps; simpl;
      rewrite HL; by simplify_map_eq. }
  assert ((bundleMaps certBundle).2 !! Issuer I = None) as HsI.
  { destruct Hbundle as [-> | ->]; unfold bundleMaps; simpl;
      rewrite HI; by simplify_map_eq. }
  assert (validateChain (bundleMaps certBundle).2 [I] None = Ok (Some I)) as Hch.
  { simpl. by rewrite HsI. }
  repeat split; try done.
  unfold ValidateBundle.
  destruct (bundleMaps certBundle) as [issuerMap subjectMap]. simpl in *.
  rewrite Hcl, HsL, HvL. simpl. rewrite HsI. simpl. by rewrite HvP.
Qed.
End chain_properties.

(** ** The store *)

Section store_properties.
Context `{Codec, Ed25519, Clock}.

Lemma fresh_lookup_ne (h : gmap positive Certificate) l obj :
  h !! l = Some obj → fresh (dom h) ≠ l.
Proof.
  intros Hl <-. apply (is_fresh (dom h)), elem_of_dom. eauto.
Qed.

(** C9. A call of [validateCertificate] leaves every object of the store as
    it was - the certificate of the caller among them, signature included:
    the only write goes to the object that [Copy] has allocated - and its
    outcome is the outcome of the value-level [validateCertificate] on the
    certificate that the pointer refers to: a function of the certificate,
    the key and the clock. *)
Theorem validateCertificate_leaves_store (h : gmap positive Certificate)
    (origCert : option positive) (pubKey : list byte) :
  (∀ l obj, h !! l = Some obj →
     (Store.validateCertificate origCert pubKey h).1 !! l = Some obj)
  ∧ (Store.validateCertificate origCert pubKey h).2 =
      (obj ← (Store.load origCert h).2; validateCertificate obj pubKey).
Proof.
  unfold Store.validateCertificate, validateCertificate.
  cbv [mbind Store.M_bind Store.lift Store.load Store.store Store.alloc Store.Copy
       result_bind deref StdTime].
  destruct origCert as [l0|]; [|by split].
  destruct (h !! l0) as [obj0|] eqn:Hl0; cbn [fst snd]; [|by split].
  destruct (Copy obj0) as [obj| |] eqn:Hcopy; cbn [fst snd]; [|by split..].
  set (l' := fresh (dom h)).
  assert (∀ (o' : Certificate) l o, h !! l = Some o → <[l' := o']> h !! l = Some o)
    as Hframe.
  { intros o' l o Hl. rewrite lookup_insert_ne; [done|]. by eapply fresh_lookup_ne. }
  rewrite lookup_insert_eq.
  destruct (Validity_ obj) as [v|]; cbn [fst snd]; [|by split; [apply Hframe|]].
  destruct (if negb (IsZero (NotBefore v)) then _ else _) as [[]| |]; cbn [fst snd];
    [|by split; [apply Hframe|]..].
  rewrite lookup_insert_eq.
  destruct (if negb (IsZero (NotAfter v)) then _ else _) as [[]| |]; cbn [fst snd];
    [|by split; [apply Hframe|]..].
  rewrite insert_insert_eq.
  destruct (Bytes _) as [certBytes err]; cbn [fst snd].
  by split; [apply Hframe|].
Qed.
End store_properties.

(** ** The wire format: reading back what was written *)

Module WireFacts.
Import Wire.
#[local] Open Scope N_scope.

Lemma to_N_byte_of_N n : Byte.to_N (byte_of_N n) = n mod 256.
Proof.
  unfold byte_of_N. destruct (Byte.of_N (n mod 256)) as [b|] eqn:Hb; simpl.
  - by apply Byte.to_of_N.
  - apply Byte.of_N_None_iff in Hb. pose proof (N.mod_upper_bound n 256). lia.
Qed.

Lemma length_be_bytes w n : length (be_bytes w n) = w.
Proof.
  revert n. induction w as [|w IH]; intros n; simpl; [done|].
  rewrite length_app, IH. simpl. lia.
Qed.

Lemma be_value_snoc bs b : be_value (bs ++ [b]) = be_value bs * 256 + Byte.to_N b.
Proof. unfold be_value. by rewrite foldl_app. Qed.

Lemma be_value_be_bytes w n : be_value (be_bytes w n) = n mod 256 ^ N.of_nat w.
Proof.
  revert n. induction w as [|w IH]; intros n.
  - simpl. by rewrite N.mod_1_r.
  - cbn [be_bytes]. rewrite be_value_snoc, IH, to_N_byte_of_N.
    rewrite Nat2N.inj_succ, N.pow_succ_r', N.Div0.mod_mul_r. lia.
Qed.

Lemma take_exact_app bs rest : take_exact (length bs) (bs ++ rest) = Some (bs, rest).
Proof.
  unfold take_exact. rewrite decide_True by (rewrite length_app; lia).
  by rewrite take_app_length, drop_app_length.
Qed.

Lemma first_byte major info :
  major < 8 → info < 32 →
  Byte.to_N (byte_of_N (major * 32 + info)) / 32 = major
  ∧ Byte.to_N (byte_of_N (major * 32 + info)) mod 32 = info.
Proof.
  intros Hm Hi. rewrite to_N_byte_of_N, N.mod_small by lia. split.
  - symmetry. apply (N.div_unique _ _ _ info); lia.
  - symmetry. apply (N.mod_unique _ _ major); lia.
Qed.

Lemma read_head_short major info rest :
  major < 8 → info < 24 →
  read_head (byte_of_N (major * 32 + info) :: rest) = Some ((major, info), rest).
Proof.
  intros Hm Hi. unfold read_head.
  destruct (first_byte major info) as [-> ->]; [lia..|].
  by apply N.ltb_lt in Hi as ->.
Qed.

Lemma read_head_long major info w arg rest :
  major < 8 → 24 ≤ info < 32 → width info = Some w → arg < 256 ^ N.of_nat w →
  read_head (byte_of_N (major * 32 + info) :: be_bytes w arg ++ rest)
    = Some ((major, arg), rest).
Proof.
  intros Hm Hi Hw Ha. unfold read_head.
  destruct (first_byte major info) as [-> ->]; [lia..|].
  replace (info <? 24) with false by (symmetry; apply N.ltb_ge; lia).
  rewrite Hw. simpl.
  rewrite <-(length_be_bytes w arg) at 1. rewrite take_exact_app. simpl.
  by rewrite be_value_be_bytes, N.mod_small.
Qed.

Lemma read_head_head major arg rest :
  major < 8 → arg < 2 ^ 64 →
  read_head (head major arg ++ rest) = Some ((major, arg), rest).
Proof.
  intros Hm Ha. unfold head.
  destruct (N.ltb_spec arg 24); [by apply read_head_short|].
  destruct (N.ltb_spec arg (2 ^ 8)); [by apply (read_head_long _ 24 1%nat)|].
  destruct (N.ltb_spec arg (2 ^ 16)); [by apply (read_head_long _ 25 2%nat)|].
  destruct (N.ltb_spec arg (2 ^ 32)); [by apply (read_head_long _ 26 4%nat)|].
  by apply (read_head_long _ 27 8%nat).
Qed.

Lemma read_major_head major arg rest :
  major < 8 → arg < 2 ^ 64 →
  read_major major (head major arg ++ rest) = Some (arg, rest).
Proof.
  intros Hm Ha. unfold read_major. rewrite read_head_head by done. simpl.
  by rewrite N.eqb_refl.
Qed.

(** One step of a decoder: the item just read is bound. *)
Ltac bind_step := cbn [mbind option_bind N.eqb Pos.eqb app].

Lemma uint64_true n : uint64 n = true ↔ n < 2 ^ 64.
Proof. apply N.ltb_lt. Qed.

Lemma dec_uint_enc_uint n rest :
  uint64 n = true → dec_uint (enc_uint n ++ rest) = Some (n, rest).
Proof. intros Hn%uint64_true. by apply read_major_head. Qed.

Lemma dec_int_enc_int z rest :
  int64 z = true → dec_int (enc_int z ++ rest) = Some (z, rest).
Proof.
  unfold int64, enc_int, dec_int.
  intros [Hlo%Z.leb_le Hhi%Z.ltb_lt]%andb_true_iff.
  destruct (Z.leb_spec 0 z).
  - rewrite read_head_head by lia. simpl. by rewrite Z2N.id.
  - rewrite read_head_head by lia. simpl. rewrite Z2N.id by lia. f_equal. f_equal. lia.
Qed.

Lemma dec_bytes_enc_bytes bs rest :
  len64 bs = true → dec_bytes (enc_bytes bs ++ rest) = Some (bs, rest).
Proof.
  intros Hn%uint64_true. unfold dec_bytes, enc_bytes.
  rewrite <-app_assoc, read_major_head by done. simpl.
  rewrite Nat2N.id. apply take_exact_app.
Qed.

Lemma dec_text_enc_text s rest :
  len64 (list_byte_of_string s) = true →
  dec_text (enc_text s ++ rest) = Some (s, rest).
Proof.
  intros Hn%uint64_true. unfold dec_text, enc_text.
  rewrite <-app_assoc, read_major_head by done. simpl.
  rewrite Nat2N.id, take_exact_app. simpl.
  by rewrite string_of_list_byte_of_string.
Qed.

Lemma dec_bool_enc_bool b rest : dec_bool (enc_bool b ++ rest) = Some (b, rest).
Proof.
  unfold dec_bool, enc_bool.
  rewrite read_major_head by (destruct b; lia). by destruct b.
Qed.

Lemma dec_Extension_enc_Extension e rest :
  valid_Extension e = true →
  dec_Extension (enc_Extension e ++ rest) = Some (e, rest).
Proof.
  unfold valid_Extension, dec_Extension, enc_Extension.
  intros [Hoid Hvalue]%andb_true_iff.
  rewrite <-!app_assoc, read_major_head by lia. simpl.
  rewrite dec_uint_enc_uint by done. simpl.
  rewrite dec_bool_enc_bool. simpl.
  rewrite dec_bytes_enc_bytes by done. simpl.
  by destruct e.
Qed.

Lemma dec_items_Extensions es rest :
  forallb valid_Extension es = true →
  dec_items dec_Extension (length es) (mjoin (enc_Extension <$> es) ++ rest)
    = Some (es, rest).
Proof.
  induction es as [|e es IH]; [done|].
  intros [He Hes]%andb_true_iff.
  change (mjoin (enc_Extension <$> e :: es))
    with (enc_Extension e ++ mjoin (enc_Extension <$> es)).
  cbn [length dec_items].
  rewrite <-app_assoc, dec_Extension_enc_Extension by done.
  cbn [mbind option_bind]. by rewrite IH.
Qed.

Lemma dec_Extensions_enc_Extensions es rest :
  len64 es = true → forallb valid_Extension es = true →
  dec_Extensions (enc_Extensions es ++ rest) = Some (es, rest).
Proof.
  intros Hn%uint64_true Hes. unfold dec_Extensions, enc_Extensions.
  rewrite <-app_assoc, read_major_head by done. simpl.
  rewrite Nat2N.id. by apply dec_items_Extensions.
Qed.

Lemma dec_Validity_enc_Validity v rest :
  valid_Validity v = true →
  dec_Validity (enc_Validity v ++ rest) = Some (v, rest).
Proof.
  unfold valid_Validity, dec_Validity, enc_Validity.
  destruct v as [[notBefore|] [notAfter|]];
    cbn [NotBefore NotAfter default from_option id]; try done.
  intros [Hnb Hna]%andb_true_iff.
  rewrite <-!app_assoc, read_major_head by lia. simpl.
  rewrite dec_int_enc_int by done. simpl.
  by rewrite dec_int_enc_int.
Qed.

Lemma Decode_Encode c rest :
  valid_Certificate c = true → Decode (Encode c ++ rest) = Some (c, rest).
Proof.
  unfold valid_Certificate, Decode, Encode.
  rewrite !andb_true_iff.
  intros [[[[[[[Hsn Hiss] Hval] Hsub] Hpk] Hn] Hexts] Hsig].
  destruct c as [sn iss [v|] sub pk exts sig];
    cbn [SerialNumber Issuer Validity_ Subject PubKey Extensions Signature] in *;
    rewrite <-!app_assoc, read_major_head by lia; bind_step;
    rewrite dec_uint_enc_uint by done; bind_step;
    rewrite dec_text_enc_text by done; bind_step;
    try (rewrite dec_Validity_enc_Validity by done; bind_step);
    rewrite dec_text_enc_text by done; bind_step;
    rewrite dec_bytes_enc_bytes by done; bind_step;
    rewrite dec_Extensions_enc_Extensions by done; bind_step;
    by rewrite dec_bytes_enc_bytes.
Qed.
End WireFacts.

(** C2. On the values of [Certificate] that the wire format describes,
    [Serialize] returns no error and [Parse] of the bytes it has written
    returns the certificate, equal in every field: serial number, issuer,
    validity, subject, public key, extensions in order, signature. *)
Theorem Parse_Serialize c :
  Wire.valid_Certificate c = true →
  (@Serialize Wire.codec c).2 = None
  ∧ @Parse Wire.codec (@Serialize Wire.codec c).1 = Ok c.
Proof.
  intros Hc. split; [done|]. unfold Parse, Serialize. simpl.
  rewrite <-(app_nil_r (Wire.Encode c)).
  by rewrite (WireFacts.Decode_Encode c [] Hc).
Qed.

(** * The properties on concrete certificates

    The pool holds [Example.root]; the codec is [Wire.codec], the signature
    scheme and the clock are those of [Example]. *)

Section concrete.
#[local] Existing Instances Wire.codec Example.ed25519 Example.clock.
Import Example.

(** The signature of [intermediate] verifies under the key of the root over
    the encoding without signature, and not over the encoding with the
    signature in place. *)
Lemma validateCertificate_verifies_signed_bytes_witness :
  Copy intermediate = Ok intermediate
  ∧ validateCertificate intermediate rootKey = Ok tt
  ∧ validateCertificate intermediate leafKey = Err BadSignatureError
  ∧ validateCertificate intermediate shortKey = Panic
  ∧ ed25519_Verify rootKey (codec_Encode intermediate).1 (Signature intermediate)
    = Ok false.
Proof.
  pose proof (validateCertificate_verifies_signed_bytes intermediate intermediate
                rootKey) as Hroot.
  pose proof (validateCertificate_verifies_signed_bytes intermediate intermediate
                leafKey) as Hleaf.
  pose proof (validateCertificate_verifies_signed_bytes intermediate intermediate
                shortKey) as Hshort.
  cbv zeta in Hroot, Hleaf, Hshort.
  destruct Hroot as (_ & _ & Hok & _); [by vm_compute..|].
  destruct Hleaf as (_ & Hbad & _ & _); [by vm_compute..|].
  destruct Hshort as (_ & _ & _ & Hpanic); [by vm_compute..|].
  split; [reflexivity|]. split; [apply Hok; by vm_compute|].
  split; [apply Hbad; by vm_compute|]. split; [apply Hpanic; by vm_compute|].
  by vm_compute.
Defined.

Lemma Parse_Serialize_witness :
  Wire.valid_Certificate root = true ∧ Parse (Serialize root).1 = Ok root.
Proof.
  split; [by vm_compute|]. apply (Parse_Serialize root). by vm_compute.
Defined.

(** The chain of three levels on ordinary dates. *)
Lemma ValidateBundle_three_levels_ordinary :
  ValidateBundle (NewCertPool [root]) [intermediate; leaf] = Ok leaf
  ∧ ValidateBundle (NewCertPool [root]) [leaf; intermediate] = Ok leaf.
Proof.
  split.
  - edestruct (ValidateBundle_three_levels_validated (NewCertPool [root]) root
                 intermediate leaf [intermediate; leaf]) as (_ & _ & _ & _ & Hres);
      [by vm_compute..|by left|exact Hres].
  - edestruct (ValidateBundle_three_levels_validated (NewCertPool [root]) root
                 intermediate leaf [leaf; intermediate]) as (_ & _ & _ & _ & Hres);
      [by vm_compute..|by right|exact Hres].
Qed.

(** C3, on a leaf that is to be valid for ever. The root is in the pool; the
    intermediate is issued and signed by the root, the leaf [forever] by the
    intermediate; the clock is inside the window of each. [NotAfter] of the
    leaf is the largest time stamp: [time.Unix] wraps around on it, the
    bound lies before the clock for [After], and [ValidateBundle] answers
    that the leaf is not valid anymore. *)
Theorem ValidateBundle_three_levels_rejects_never_expiring :
  Validity_ forever = Some (mkValidity (Some 1500000000) (Some MaxInt64))
  ∧ withinWindow (mkValidity (Some 1500000000) (Some MaxInt64))
  ∧ Issuer forever = Subject intermediate
  ∧ signedBy forever (PubKey intermediate) = true
  ∧ validateCertificate root (PubKey root) = Ok tt
  ∧ validateCertificate intermediate (PubKey root) = Ok tt
  ∧ ValidateBundle (NewCertPool [root]) [intermediate; forever] = Err ExpiredError.
Proof.
  split; [by vm_compute|]. split.
  { split; intros t [= <-] _; by vm_compute. }
  repeat split; by vm_compute.
Qed.

Lemma Validate_unknown_issuer_or_anchor_first_witness :
  NewCertPool [root] !! Issuer direct = Some (Some root)
  ∧ Validate (NewCertPool [root]) direct = validateCertificate direct (PubKey root)
  ∧ Validate (NewCertPool [root]) leaf = Err UnknownIssuerError.
Proof.
  split; [by vm_compute|]. split.
  - destruct (Validate_unknown_issuer_or_anchor_first (NewCertPool [root]) direct)
      as (_ & Hfirst & _).
    destruct (Hfirst root) as (_ & Hthen & _); [by vm_compute|].
    apply Hthen. by vm_compute.
  - apply (Validate_unknown_issuer_or_anchor_first (NewCertPool [root]) leaf).
    left. by vm_compute.
Defined.

(** The time checks on ordinary dates. *)
Lemma validateCertificate_time_window_ordinary :
  validateCertificate early rootKey = Err NotYetValidError
  ∧ validateCertificate expired rootKey = Err ExpiredError.
Proof.
  split.
  - destruct (validateCertificate_time_window_in_range early
                (mkValidity (Some 1650000000) (Some 1550000000)) rootKey)
      as [Hearly _]; [by vm_compute..|].
    apply (Hearly 1650000000); by vm_compute.
  - destruct (validateCertificate_time_window_in_range expired
                (mkValidity (Some 1500000000) (Some 1550000000)) rootKey)
      as [_ Hlate]; [by vm_compute..|].
    apply (Hlate 1550000000); by vm_compute.
Qed.

(** C5, on a certificate that is to be valid at the end of times only. Its
    [NotBefore] is the largest time stamp, not zero, and the clock is
    earlier; [time.Unix] wraps around on it, the bound lies before the
    clock for [Before], and [validateCertificate] accepts the certificate. *)
Theorem validateCertificate_accepts_not_yet_valid :
  Validity_ endOfTimes = Some (mkValidity (Some MaxInt64) None)
  ∧ MaxInt64 ≠ 0
  ∧ time_Now < MaxInt64 * 1000000000
  ∧ validateCertificate endOfTimes rootKey = Ok tt.
Proof. repeat split; by vm_compute. Qed.

Lemma ValidateBundle_falls_back_to_pool_witness :
  Validate (NewCertPool [root]) direct = Ok tt
  ∧ ValidateBundle (NewCertPool [root]) [direct] = Ok direct.
Proof.
  split; [by vm_compute|].
  apply (ValidateBundle_falls_back_to_pool (NewCertPool [root])); by vm_compute.
Defined.

Lemma ValidateBundle_classifies_by_issuer_witness :
  ValidateBundle (NewCertPool [root]) [root] = Err NoLeafError.
Proof.
  apply (ValidateBundle_classifies_by_issuer [root]).
  by intros c ->%list_elem_of_singleton.
Defined.

Lemma validateCertificate_leaves_store_witness :
  (Store.validateCertificate (Some 1%positive) rootKey {[1%positive := root]}).1
    !! 1%positive = Some root.
Proof.
  apply (validateCertificate_leaves_store {[1%positive := root]} (Some 1%positive) rootKey).
  by vm_compute.
Defined.

Lemma IsZero_bound_unconstrained_witness :
  IsZero (NotAfter (mkValidity (Some 0) None)) = true
  ∧ validateCertificate leaf intermediateKey ≠ Err ExpiredError
  ∧ validateCertificate leaf shortKey = Panic
  ∧ length shortKey ≠ PublicKeySize.
Proof.
  split; [reflexivity|].
  destruct IsZero_bound_unconstrained as [_ Hnil].
  destruct (Hnil leaf (mkValidity (Some 0) None) intermediateKey eq_refl)
    as (_ & _ & Hafter).
  destruct (Hnil leaf (mkValidity (Some 0) None) shortKey eq_refl)
    as (Hpanic & _ & _).
  split; [by apply Hafter|]. split; [by vm_compute|].
  apply Hpanic. by vm_compute.
Defined.
End concrete.

(** * Further properties of the package *)

(** ** Maps built from lists: the last certificate of a name wins *)

Lemma last_filter_snoc {A} (P : A → Prop) `{∀ x, Decision (P x)} (l : list A) x :
  last (filter P (l ++ [x])) = if decide (P x) then Some x else last (filter P l).
Proof.
  rewrite filter_app, filter_cons, filter_nil.
  case_decide; [by rewrite last_snoc|by rewrite app_nil_r].
Qed.

Lemma last_filter_None {A} (P : A → Prop) `{∀ x, Decision (P x)} (l : list A) :
  last (filter P l) = None ↔ ∀ x, x ∈ l → ¬ P x.
Proof.
  rewrite last_None. split.
  - intros Hnil x Hx HP. by apply (filter_nil_not_elem_of P l x).
  - apply filter_none.
Qed.

Lemma last_filter_elem {A} (P : A → Prop) `{∀ x, Decision (P x)} (l : list A) x :
  last (filter P l) = Some x → x ∈ l ∧ P x.
Proof.
  intros [l' Hl]%last_Some.
  destruct (proj1 (list_elem_of_filter P l x)) as [HP Hx]; [|done].
  rewrite Hl. auto.
Qed.

Lemma bundleMaps_lookup certBundle k :
  (bundleMaps certBundle).1 !! k = last (filter (λ c, Issuer c = k) certBundle)
  ∧ (bundleMaps certBundle).2 !! k = last (filter (λ c, Subject c = k) certBundle).
Proof.
  induction certBundle as [|c l [IHi IHs]] using rev_ind.
  - split; apply lookup_empty.
  - rewrite bundleMaps_snoc, !last_filter_snoc. cbn [fst snd].
    rewrite !lookup_insert, IHi, IHs. done.
Qed.

Lemma NewCertPool_lookup_last rootCerts k :
  NewCertPool rootCerts !! k = Some <$> last (filter (λ c, Subject c = k) rootCerts).
Proof.
  induction rootCerts as [|c l IH] using rev_ind.
  - unfold NewCertPool. simpl. by rewrite lookup_empty.
  - rewrite NewCertPool_snoc, last_filter_snoc, lookup_insert, IH.
    by case_decide.
Qed.

(** X1. The two maps of the first loop of [ValidateBundle]: under a name, the
    issuer map holds the last certificate of the bundle issued by that name
    and the subject map the last certificate of the bundle with that subject;
    so what a lookup returns is a certificate of the bundle under its own
    name, and a name that no certificate of the bundle has is not a key. *)
Theorem bundleMaps_last_wins certBundle k :
  (bundleMaps certBundle).1 !! k = last (filter (λ c, Issuer c = k) certBundle)
  ∧ (bundleMaps certBundle).2 !! k = last (filter (λ c, Subject c = k) certBundle)
  ∧ (∀ c, (bundleMaps certBundle).2 !! k = Some c → c ∈ certBundle ∧ Subject c = k)
  ∧ ((bundleMaps certBundle).2 !! k = None ↔ ∀ c, c ∈ certBundle → Subject c ≠ k).
Proof.
  destruct (bundleMaps_lookup certBundle k) as [Hi Hs].
  split; [done|]. split; [done|]. rewrite Hs. split.
  - intros c. apply (last_filter_elem (λ c, Subject c = k)).
  - apply (last_filter_None (λ c, Subject c = k)).
Qed.

(** X2. [NewCertPool] holds, under a name, the last root of that subject; it
    never holds nil; and a name is a key exactly when it is the subject of a
    root. *)
Theorem NewCertPool_lookup rootCerts k :
  NewCertPool rootCerts !! k = Some <$> last (filter (λ c, Subject c = k) rootCerts)
  ∧ NewCertPool rootCerts !! k ≠ Some None
  ∧ (NewCertPool rootCerts !! k = None ↔ ∀ c, c ∈ rootCerts → Subject c ≠ k).
Proof.
  rewrite NewCertPool_lookup_last. split; [done|]. split.
  - by destruct (last _).
  - rewrite fmap_None. apply (last_filter_None (λ c, Subject c = k)).
Qed.

(** ** The outcomes of validateCertificate *)

Section validateCertificate_outcomes.
Context `{Codec, Ed25519, Clock}.

Lemma tooEarly_in_range v :
  clockInRange → (∀ t, NotBefore v = Some t → inRange t) →
  tooEarly v = true
  ↔ ∃ notBefore, NotBefore v = Some notBefore ∧ notBefore ≠ 0
      ∧ time_Now < notBefore * 1000000000.
Proof.
  intros Hclock Hrange. unfold tooEarly. destruct (NotBefore v) as [t|].
  - rewrite time_Before_in_range by auto.
    rewrite andb_true_iff, negb_true_iff, Z.eqb_neq, Z.ltb_lt. split.
    + intros [? ?]. by exists t.
    + by intros (? & [= <-] & ? & ?).
  - split; [done|]. by intros (? & ? & _).
Qed.

Lemma tooLate_in_range v :
  clockInRange → (∀ t, NotAfter v = Some t → inRange t) →
  tooLate v = true
  ↔ ∃ notAfter, NotAfter v = Some notAfter ∧ notAfter ≠ 0
      ∧ notAfter * 1000000000 < time_Now.
Proof.
  intros Hclock Hrange. unfold tooLate. destruct (NotAfter v) as [t|].
  - rewrite time_After_in_range by auto.
    rewrite andb_true_iff, negb_true_iff, Z.eqb_neq, Z.ltb_lt. split.
    + intros [? ?]. by exists t.
    + by intros (? & [= <-] & ? & ?).
  - split; [done|]. by intros (? & ? & _).
Qed.

(** X3. The window, to the nanosecond, and where it breaks. With validity
    present and bounds that [time.Unix] represents, [validateCertificate]
    answers NotYetValidError exactly when [NotBefore] is a non-zero second
    that the clock has not reached, and ExpiredError exactly when that is
    not so and [NotAfter] is a non-zero second that the clock has passed:
    at the very instant of either bound the certificate is inside its
    window. On a bound near the largest time stamp, on which [time.Unix]
    wraps around, [NotBefore] never fails its check and [NotAfter] always
    does. *)
Theorem validateCertificate_window_exact c v pubKey :
  Validity_ c = Some v → clockInRange →
  ((∀ t, NotBefore v = Some t → inRange t) →
   (∀ t, NotAfter v = Some t → inRange t) →
   (validateCertificate c pubKey = Err NotYetValidError
    ↔ ∃ notBefore, NotBefore v = Some notBefore ∧ notBefore ≠ 0
        ∧ time_Now < notBefore * 1000000000)
   ∧ (validateCertificate c pubKey = Err ExpiredError
      ↔ ¬ (∃ notBefore, NotBefore v = Some notBefore ∧ notBefore ≠ 0
             ∧ time_Now < notBefore * 1000000000)
        ∧ ∃ notAfter, NotAfter v = Some notAfter ∧ notAfter ≠ 0
            ∧ notAfter * 1000000000 < time_Now))
  ∧ (∀ notBefore, NotBefore v = Some notBefore → wraps notBefore →
       validateCertificate c pubKey ≠ Err NotYetValidError)
  ∧ (∀ notAfter, NotAfter v = Some notAfter → wraps notAfter →
       validateCertificate c pubKey = Err NotYetValidError
       ∨ validateCertificate c pubKey = Err ExpiredError).
Proof.
  intros Hv Hclock. rewrite (validateCertificate_present c v pubKey Hv).
  pose proof (ed25519_Verify_not_Err pubKey (signedBytes c).1 (Signature c))
    as Hverify.
  split; [|split].
  - intros Hnb Hna.
    rewrite <-(tooEarly_in_range v Hclock Hnb), <-(tooLate_in_range v Hclock Hna).
    destruct (tooEarly v), (tooLate v); simpl.
    + split; [done|]. split; [done|]. by intros [[] _].
    + split; [done|]. split; [done|]. by intros [[] _].
    + split; [|by split; [|intros [_ ?]]].
      split; [done|discriminate].
    + destruct (signedBytes c) as [bs [e|]]; simpl in *;
        [|destruct (ed25519_Verify pubKey bs (Signature c)) as [[]|e|]];
        try (by destruct (Hverify e));
        (split; [split; [done|discriminate]|]); (split; [done|by intros [_ ?]]).
  - intros nb Hnb Hwraps. unfold tooEarly.
    rewrite Hnb, time_Before_wraps, andb_false_r by done.
    repeat case_match; try done. by destruct (Hverify e).
  - intros na Hna Hwraps.
    assert (na ≠ 0) as Hnz%Z.eqb_neq by (unfold wraps, unixToInternal in Hwraps; lia).
    assert (tooLate v = true) as ->.
    { unfold tooLate. by rewrite Hna, Hnz, time_After_wraps. }
    destruct (tooEarly v); [by left|by right].
Qed.

(** X4. The outcomes of [validateCertificate], in the order of the code. It
    panics exactly when the validity is absent, or the time checks pass, the
    certificate without signature is encoded, and the key is not of
    [PublicKeySize] bytes. It answers EncodeError exactly when the time
    checks pass and the encoding of the certificate without signature
    fails, whatever the key and the signature are. It succeeds exactly when
    the time checks pass and [ed25519.Verify] accepts the signature over the
    encoded bytes. And it has no error but its four. *)
Theorem validateCertificate_outcomes c pubKey :
  (validateCertificate c pubKey = Panic
   ↔ Validity_ c = None
     ∨ (passesTimeChecks c = true ∧ (signedBytes c).2 = None
        ∧ length pubKey ≠ PublicKeySize))
  ∧ (validateCertificate c pubKey = Err EncodeError
     ↔ passesTimeChecks c = true ∧ is_Some (signedBytes c).2)
  ∧ (validateCertificate c pubKey = Ok tt
     ↔ passesTimeChecks c = true ∧ (signedBytes c).2 = None
       ∧ length pubKey = PublicKeySize
       ∧ ed25519_verify pubKey (signedBytes c).1 (Signature c) = true)
  ∧ (∀ e, validateCertificate c pubKey = Err e →
       e = NotYetValidError ∨ e = ExpiredError ∨ e = EncodeError
       ∨ e = BadSignatureError).
Proof.
  unfold passesTimeChecks. destruct (Validity_ c) as [v|] eqn:Hv.
  - rewrite (validateCertificate_present c v pubKey Hv).
    unfold ed25519_Verify.
    destruct (tooEarly v), (tooLate v); simpl;
      try (destruct (signedBytes c) as [bs [e|]]; simpl;
           [|case_decide;
             [destruct (ed25519_verify pubKey bs (Signature c))|]]);
      repeat split;
      solve [ done | eauto | by intros [? ?] | by intros [_ [? ?]]
            | by intros [?|(? & ? & ?)] | by intros (? & ? & ? & ?)
            | by right | intros ? [= <-]; auto ].
  - rewrite (validateCertificate_absent c pubKey Hv).
    repeat split; solve [ done | by left | by intros [? ?] ].
Qed.
End validateCertificate_outcomes.

(** ** Validate on a pool made by NewCertPool *)

Section Validate_outcomes.
Context `{Codec, Ed25519, Clock}.

Lemma Validate_Ok_iff (pool : CertPool) cert :
  Validate pool cert = Ok tt
  ↔ ∃ issuerCert, pool !! Issuer cert = Some (Some issuerCert)
      ∧ validateCertificate issuerCert (PubKey issuerCert) = Ok tt
      ∧ validateCertificate cert (PubKey issuerCert) = Ok tt.
Proof.
  unfold Validate. destruct (pool !! Issuer cert) as [[issuerCert|]|].
  - split.
    + destruct (validateCertificate issuerCert (PubKey issuerCert)) as [[]| |] eqn:Hi;
        [|done..].
      intros Hc. by exists issuerCert.
    + by intros (? & [= <-] & -> & ->).
  - split; [done|]. by intros (? & ? & _).
  - split; [done|]. by intros (? & ? & _).
Qed.

Lemma Validate_Unknown_iff (pool : CertPool) cert :
  Validate pool cert = Err UnknownIssuerError
  ↔ pool !! Issuer cert = None ∨ pool !! Issuer cert = Some None.
Proof.
  unfold Validate. destruct (pool !! Issuer cert) as [[issuerCert|]|];
    [|split; auto..].
  split; [|by intros [|]].
  destruct (validateCertificate issuerCert (PubKey issuerCert)) as [[]| |];
    [|simpl; done|done].
  intros []%validateCertificate_not_unknown.
Qed.

(** X5. On a pool made by [NewCertPool], [Validate] answers
    UnknownIssuerError exactly when no root has the issuer of the certificate
    as its subject, and succeeds exactly when the last root of that subject
    validates under its own key and the certificate validates under the key
    of that root. *)
Theorem Validate_NewCertPool rootCerts cert :
  (Validate (NewCertPool rootCerts) cert = Err UnknownIssuerError
   ↔ ∀ r, r ∈ rootCerts → Subject r ≠ Issuer cert)
  ∧ (Validate (NewCertPool rootCerts) cert = Ok tt
     ↔ ∃ r, last (filter (λ c, Subject c = Issuer cert) rootCerts) = Some r
         ∧ validateCertificate r (PubKey r) = Ok tt
         ∧ validateCertificate cert (PubKey r) = Ok tt).
Proof.
  rewrite Validate_Unknown_iff, Validate_Ok_iff, NewCertPool_lookup_last. split.
  - rewrite <-(last_filter_None (λ c, Subject c = Issuer cert)).
    destruct (last _); simpl; (split; [by intros [|]|]); [done|by left].
  - split; intros (r & Hr & ?); exists r; (split; [|done]).
    + by destruct (last _); simplify_eq/=.
    + by rewrite Hr.
Qed.
End Validate_outcomes.

(** ** The chain of intermediates *)

Section validateChain_outcomes.
Context `{Codec, Ed25519, Clock}.

Lemma validateChain_Ok_iff (subjectMap : gmap string Certificate) intermediateCerts
    chainTopCert r :
  validateChain subjectMap intermediateCerts chainTopCert = Ok r
  ↔ (∀ c issuerCert, c ∈ intermediateCerts →
       subjectMap !! Issuer c = Some issuerCert →
       validateCertificate c (PubKey issuerCert) = Ok tt)
    ∧ r = from_option Some chainTopCert
            (last (filter (λ c, subjectMap !! Issuer c = None) intermediateCerts)).
Proof.
  revert chainTopCert.
  induction intermediateCerts as [|cert rest IH]; intros chainTopCert.
  - simpl. split.
    + intros [= <-]. split; [|done]. by intros c i ?%elem_of_nil.
    + by intros [_ ->].
  - cbn [validateChain]. rewrite filter_cons.
    destruct (subjectMap !! Issuer cert) as [issuerCert|] eqn:Hi.
    + rewrite decide_False by done.
      destruct (validateCertificate cert (PubKey issuerCert)) as [[]| |] eqn:Hv.
      * rewrite IH. split; intros [Hall ->]; (split; [|done]).
        -- intros c i [->|Hc]%elem_of_cons Hci; [by simplify_eq|by eapply Hall].
        -- intros c i Hc. apply Hall. by right.
      * split; [done|]. intros [Hall _].
        specialize (Hall cert issuerCert (list_elem_of_here _ _) Hi). congruence.
      * split; [done|]. intros [Hall _].
        specialize (Hall cert issuerCert (list_elem_of_here _ _) Hi). congruence.
    + rewrite decide_True by done. rewrite IH, last_cons.
      assert (∀ o : option Certificate,
                from_option Some (Some cert) o
                = from_option Some chainTopCert
                    (match o with Some y => Some y | None => Some cert end)) as ->
        by by intros [?|].
      split; intros [Hall ->]; (split; [|done]).
      * intros c i [->|Hc]%elem_of_cons Hci; [congruence|by eapply Hall].
      * intros c i Hc. apply Hall. by right.
Qed.

Lemma validateChain_Err (subjectMap : gmap string Certificate) intermediateCerts
    chainTopCert e :
  validateChain subjectMap intermediateCerts chainTopCert = Err e →
  e = BrokenChainError.
Proof.
  revert chainTopCert.
  induction intermediateCerts as [|cert rest IH]; intros chainTopCert; [done|].
  cbn [validateChain]. destruct (subjectMap !! Issuer cert) as [issuerCert|]; [|apply IH].
  destruct (validateCertificate cert (PubKey issuerCert)) as [[]| |];
    [apply IH|by intros [= <-]|done].
Qed.

(** X6. The third loop of [ValidateBundle]. It succeeds exactly when every
    intermediate whose issuer is a subject of the bundle validates under the
    key of that certificate; the chain top it returns is the last
    intermediate whose issuer is not a subject of the bundle, and such an
    intermediate is not validated in the loop. Whatever the error of a link
    is, the loop answers BrokenChainError. *)
Theorem validateChain_outcome (subjectMap : gmap string Certificate)
    intermediateCerts :
  (∀ r, validateChain subjectMap intermediateCerts None = Ok r
     ↔ (∀ c issuerCert, c ∈ intermediateCerts →
          subjectMap !! Issuer c = Some issuerCert →
          validateCertificate c (PubKey issuerCert) = Ok tt)
       ∧ r = last (filter (λ c, subjectMap !! Issuer c = None) intermediateCerts))
  ∧ (∀ e, validateChain subjectMap intermediateCerts None = Err e →
       e = BrokenChainError).
Proof.
  split.
  - intros r. rewrite validateChain_Ok_iff. by destruct (last _).
  - apply validateChain_Err.
Qed.
End validateChain_outcomes.

(** ** The outcomes of ValidateBundle *)

Section ValidateBundle_outcomes.
Context `{Codec, Ed25519, Clock}.

Lemma from_option_Some_None {A} (o : option A) : from_option Some None o = o.
Proof. by destruct o. Qed.

Lemma elem_of_intermediates certBundle c :
  c ∈ filter (λ c, issuesIn certBundle c) certBundle
  ↔ c ∈ certBundle ∧ issuesIn certBundle c.
Proof. rewrite (list_elem_of_filter (λ c, issuesIn certBundle c)). tauto. Qed.

(** X7. When [ValidateBundle] succeeds. The certificate it returns is the
    last certificate of the bundle that issues no certificate of the bundle.
    If the bundle has a certificate under the issuer of that leaf, the leaf
    validates under its key, every intermediate with an issuer in the bundle
    validates under the key of that issuer, and the pool validates the last
    intermediate without an issuer in the bundle; if it has none, the pool
    validates the leaf. And conversely. *)
Theorem ValidateBundle_Ok_iff (pool : CertPool) certBundle L :
  ValidateBundle pool certBundle = Ok L
  ↔ last (filter (λ c, ¬ issuesIn certBundle c) certBundle) = Some L
    ∧ match (bundleMaps certBundle).2 !! Issuer L with
      | Some clientIssuer =>
          validateCertificate L (PubKey clientIssuer) = Ok tt
          ∧ (∀ c issuerCert, c ∈ certBundle → issuesIn certBundle c →
               (bundleMaps certBundle).2 !! Issuer c = Some issuerCert →
               validateCertificate c (PubKey issuerCert) = Ok tt)
          ∧ ∃ T, last (filter (λ c, (bundleMaps certBundle).2 !! Issuer c = None)
                         (filter (λ c, issuesIn certBundle c) certBundle)) = Some T
              ∧ Validate pool T = Ok tt
      | None => Validate pool L = Ok tt
      end.
Proof.
  rewrite ValidateBundle_classified.
  destruct (last (filter (λ c, ¬ issuesIn certBundle c) certBundle)) as [L'|];
    [|split; [done|by intros [? _]]].
  split.
  - destruct ((bundleMaps certBundle).2 !! Issuer L') as [clientIssuer|] eqn:HI.
    + destruct (validateCertificate L' (PubKey clientIssuer)) as [[]| |] eqn:HvL; [|done..].
      destruct (validateChain _ _ None) as [[T|]| |] eqn:Hchain; simpl; [|done..].
      destruct (Validate pool T) as [[]| |] eqn:HvT; [|done..].
      intros [= <-]. rewrite HI. split; [done|]. split; [done|].
      apply validateChain_Ok_iff in Hchain as [Hall HT].
      rewrite from_option_Some_None in HT. split.
      * intros c i Hc Hi. apply Hall. by apply elem_of_intermediates.
      * by exists T.
    + destruct (Validate pool L') as [[]| |] eqn:HvL; [|done..].
      intros [= <-]. by rewrite HI.
  - intros [[= ->] Hrest].
    destruct ((bundleMaps certBundle).2 !! Issuer L) as [clientIssuer|] eqn:HI.
    + destruct Hrest as (-> & Hall & T & HT & HvT).
      assert (validateChain (bundleMaps certBundle).2
                (filter (λ c, issuesIn certBundle c) certBundle) None
              = Ok (Some T)) as ->; [|by simpl; rewrite HvT].
      apply validateChain_Ok_iff. split; [|by rewrite HT].
      intros c i [? ?]%elem_of_intermediates. by apply Hall.
    + by rewrite Hrest.
Qed.

(** X8. What a success of [ValidateBundle] stands on. The certificate it
    returns is a certificate of the bundle that issues no certificate of the
    bundle and that passes the time checks, and the pool has validated a
    certificate of the bundle: the pool holds, under the issuer of some
    certificate of the bundle, a root with a key of [PublicKeySize] bytes
    under which both the root and that certificate validate, signatures
    included. *)
Theorem ValidateBundle_Ok_sound (pool : CertPool) certBundle L :
  ValidateBundle pool certBundle = Ok L →
  L ∈ certBundle ∧ ¬ issuesIn certBundle L ∧ passesTimeChecks L = true
  ∧ ∃ T root, T ∈ certBundle
      ∧ pool !! Issuer T = Some (Some root)
      ∧ length (PubKey root) = PublicKeySize
      ∧ validateCertificate root (PubKey root) = Ok tt
      ∧ signedBy root (PubKey root) = true
      ∧ validateCertificate T (PubKey root) = Ok tt
      ∧ signedBy T (PubKey root) = true.
Proof.
  assert (∀ c pubKey, signedBy c pubKey = true → length pubKey = PublicKeySize)
    as Hsize.
  { intros c pubKey. unfold signedBy.
    destruct (signedBytes c) as [bs [e|]]; [done|].
    destruct (ed25519_Verify pubKey bs (Signature c)) as [b| |] eqn:Hverify; [|done..].
    by apply ed25519_Verify_Ok in Hverify as [? _]. }
  rewrite ValidateBundle_classified.
  destruct (last (filter (λ c, ¬ issuesIn certBundle c) certBundle)) as [L'|] eqn:Hleaf;
    [|done].
  apply (last_filter_elem (λ c, ¬ issuesIn certBundle c)) in Hleaf as [HL Hnot].
  destruct ((bundleMaps certBundle).2 !! Issuer L') as [clientIssuer|] eqn:HI.
  - destruct (validateCertificate L' (PubKey clientIssuer)) as [[]| |] eqn:HvL; [|done..].
    destruct (validateChain _ _ None) as [[T|]| |] eqn:Hchain; simpl; [|done..].
    destruct (Validate pool T) as [[]| |] eqn:HvT; [|done..].
    intros [= <-].
    apply validateCertificate_Ok_iff in HvL as [? _].
    apply validateChain_Ok_iff in Hchain as [_ HT].
    rewrite from_option_Some_None in HT. symmetry in HT.
    apply (last_filter_elem (λ c, (bundleMaps certBundle).2 !! Issuer c = None))
      in HT as [[HT _]%elem_of_intermediates _].
    apply Validate_Ok_iff in HvT as (root & ? & Hroot & HvT).
    pose proof (proj1 (validateCertificate_Ok_iff _ _) Hroot) as [_ ?].
    pose proof (proj1 (validateCertificate_Ok_iff _ _) HvT) as [_ ?].
    repeat split; try done. exists T, root. repeat split; eauto.
  - destruct (Validate pool L') as [[]| |] eqn:HvL; [|done..].
    intros [= <-].
    apply Validate_Ok_iff in HvL as (root & ? & Hroot & HvL).
    pose proof (proj1 (validateCertificate_Ok_iff _ _) Hroot) as [_ ?].
    pose proof (proj1 (validateCertificate_Ok_iff _ _) HvL) as [? ?].
    repeat split; try done. exists L', root. repeat split; eauto.
Qed.
End ValidateBundle_outcomes.

(** ** The errors and the panics of ValidateBundle *)

Section ValidateBundle_errors.
Context `{Codec, Ed25519, Clock}.

Lemma validateCertificate_Err_not_bundleError c pubKey e :
  validateCertificate c pubKey = Err e → ¬ bundleError e.
Proof.
  intros He%validateCertificate_Err Hb.
  repeat (apply elem_of_cons in He as [->|He];
          [by destruct Hb as [Hb|[Hb|Hb]]; discriminate Hb|]).
  by apply elem_of_nil in He.
Qed.

Lemma Validate_Err_not_bundleError (pool : CertPool) cert e :
  Validate pool cert = Err e → ¬ bundleError e.
Proof.
  unfold Validate. destruct (pool !! Issuer cert) as [[issuerCert|]|].
  - destruct (validateCertificate issuerCert (PubKey issuerCert)) as [[]| |].
    + apply validateCertificate_Err_not_bundleError.
    + intros [= <-] Hb. by destruct Hb as [Hb|[Hb|Hb]]; discriminate Hb.
    + done.
  - intros [= <-] Hb. by destruct Hb as [Hb|[Hb|Hb]]; discriminate Hb.
  - intros [= <-] Hb. by destruct Hb as [Hb|[Hb|Hb]]; discriminate Hb.
Qed.

Lemma validateChain_Err_inv (subjectMap : gmap string Certificate)
    intermediateCerts chainTopCert e :
  validateChain subjectMap intermediateCerts chainTopCert = Err e →
  ∃ c issuerCert e', c ∈ intermediateCerts
    ∧ subjectMap !! Issuer c = Some issuerCert
    ∧ validateCertificate c (PubKey issuerCert) = Err e'.
Proof.
  revert chainTopCert.
  induction intermediateCerts as [|cert rest IH]; intros chainTopCert; [done|].
  cbn [validateChain].
  destruct (subjectMap !! Issuer cert) as [issuerCert|] eqn:Hi.
  - destruct (validateCertificate cert (PubKey issuerCert)) as [[]|e'|] eqn:Hv.
    + intros (c & i & e'' & ? & ? & ?)%IH. exists c, i, e''. split; [by right|done].
    + intros _. exists cert, issuerCert, e'. split; [by left|done].
    + done.
  - intros (c & i & e'' & ? & ? & ?)%IH. exists c, i, e''. split; [by right|done].
Qed.

Lemma validateChain_Panic_inv (subjectMap : gmap string Certificate)
    intermediateCerts chainTopCert :
  validateChain subjectMap intermediateCerts chainTopCert = Panic →
  ∃ c issuerCert, c ∈ intermediateCerts
    ∧ subjectMap !! Issuer c = Some issuerCert
    ∧ validateCertificate c (PubKey issuerCert) = Panic.
Proof.
  revert chainTopCert.
  induction intermediateCerts as [|cert rest IH]; intros chainTopCert; [done|].
  cbn [validateChain].
  destruct (subjectMap !! Issuer cert) as [issuerCert|] eqn:Hi.
  - destruct (validateCertificate cert (PubKey issuerCert)) as [[]|e'|] eqn:Hv.
    + intros (c & i & ? & ? & ?)%IH. exists c, i. split; [by right|done].
    + done.
    + intros _. exists cert, issuerCert. split; [by left|done].
  - intros (c & i & ? & ? & ?)%IH. exists c, i. split; [by right|done].
Qed.

Lemma validateCertificate_Panic_inv c pubKey :
  validateCertificate c pubKey = Panic →
  Validity_ c = None ∨ length pubKey ≠ PublicKeySize.
Proof.
  destruct (Validity_ c) as [v|] eqn:Hval; [|by left].
  rewrite (validateCertificate_present c v pubKey Hval).
  destruct (tooEarly v); [done|]. destruct (tooLate v); [done|].
  destruct (signedBytes c) as [bs [e|]]; simpl; [done|].
  destruct (ed25519_Verify pubKey bs (Signature c)) as [[]|e|] eqn:Hverify; [done..|].
  intros _. right. by apply ed25519_Verify_Panic in Hverify.
Qed.

Lemma Validate_Panic_inv (pool : CertPool) cert :
  Validate pool cert = Panic →
  Validity_ cert = None
  ∨ ∃ k root, pool !! k = Some (Some root)
      ∧ (Validity_ root = None ∨ length (PubKey root) ≠ PublicKeySize).
Proof.
  unfold Validate. destruct (pool !! Issuer cert) as [[issuerCert|]|] eqn:Hp; [|done..].
  destruct (validateCertificate issuerCert (PubKey issuerCert)) as [[]| |] eqn:Hi.
  - intros [?|?]%validateCertificate_Panic_inv; [by left|].
    right. exists (Issuer cert), issuerCert. auto.
  - done.
  - intros _. right. exists (Issuer cert), issuerCert.
    split; [done|]. by apply validateCertificate_Panic_inv in Hi.
Qed.

(** X9. The errors of the bundle loop. [ValidateBundle] answers NoLeafError
    exactly when every certificate of the bundle issues a certificate of the
    bundle (the empty bundle among them), and NoTrustAnchorError exactly when
    the leaf and every intermediate have an issuer in the bundle and
    validate under its key; when it answers BrokenChainError, an
    intermediate has failed to validate under the key of its issuer in the
    bundle. *)
Theorem ValidateBundle_errors (pool : CertPool) certBundle :
  (ValidateBundle pool certBundle = Err NoLeafError
   ↔ ∀ c, c ∈ certBundle → issuesIn certBundle c)
  ∧ (ValidateBundle pool certBundle = Err NoTrustAnchorError
     ↔ ∃ L clientIssuer,
         last (filter (λ c, ¬ issuesIn certBundle c) certBundle) = Some L
         ∧ (bundleMaps certBundle).2 !! Issuer L = Some clientIssuer
         ∧ validateCertificate L (PubKey clientIssuer) = Ok tt
         ∧ ∀ c, c ∈ certBundle → issuesIn certBundle c →
             ∃ issuerCert, (bundleMaps certBundle).2 !! Issuer c = Some issuerCert
               ∧ validateCertificate c (PubKey issuerCert) = Ok tt)
  ∧ (ValidateBundle pool certBundle = Err BrokenChainError →
     ∃ c issuerCert e, c ∈ certBundle ∧ issuesIn certBundle c
       ∧ (bundleMaps certBundle).2 !! Issuer c = Some issuerCert
       ∧ validateCertificate c (PubKey issuerCert) = Err e).
Proof.
  rewrite ValidateBundle_classified.
  destruct (last (filter (λ c, ¬ issuesIn certBundle c) certBundle)) as [L|] eqn:Hleaf.
  - assert (¬ ∀ c, c ∈ certBundle → issuesIn certBundle c) as Hsome.
    { apply (last_filter_elem (λ c, ¬ issuesIn certBundle c)) in Hleaf as [HL Hnot].
      intros Hall. by apply Hnot, Hall. }
    destruct ((bundleMaps certBundle).2 !! Issuer L) as [clientIssuer|] eqn:HI.
    + destruct (validateCertificate L (PubKey clientIssuer)) as [[]|e|] eqn:HvL.
      * destruct (validateChain _ _ None) as [[T|]|e|] eqn:Hchain; simpl.
        -- destruct (Validate pool T) as [[]|e|] eqn:HvT.
           ++ split; [done|]. split; [|done]. split; [done|].
              intros (? & ? & [= <-] & ? & _ & Hall).
              apply validateChain_Ok_iff in Hchain as [_ HT].
              rewrite from_option_Some_None in HT. symmetry in HT.
              apply (last_filter_elem
                       (λ c, (bundleMaps certBundle).2 !! Issuer c = None))
                in HT as [[HT HTi]%elem_of_intermediates Hnone].
              destruct (Hall T HT HTi) as (? & ? & _). congruence.
           ++ apply Validate_Err_not_bundleError in HvT.
              split; [|split].
              ** split; [intros [= ->]; destruct HvT; by left|done].
              ** split; [intros [= ->]; destruct HvT; right; by left|].
                 intros (? & ? & [= <-] & ? & _ & Hall).
                 apply validateChain_Ok_iff in Hchain as [_ HT].
                 rewrite from_option_Some_None in HT. symmetry in HT.
                 apply (last_filter_elem
                          (λ c, (bundleMaps certBundle).2 !! Issuer c = None))
                   in HT as [[HT HTi]%elem_of_intermediates Hnone].
                 destruct (Hall T HT HTi) as (? & ? & _). congruence.
              ** intros [= ->]. destruct HvT. right. by right.
           ++ split; [done|]. split; [|done]. split; [done|].
              intros (? & ? & [= <-] & ? & _ & Hall).
              apply validateChain_Ok_iff in Hchain as [_ HT].
              rewrite from_option_Some_None in HT. symmetry in HT.
              apply (last_filter_elem
                       (λ c, (bundleMaps certBundle).2 !! Issuer c = None))
                in HT as [[HT HTi]%elem_of_intermediates Hnone].
              destruct (Hall T HT HTi) as (? & ? & _). congruence.
        -- split; [done|]. split; [|done]. split; [intros _|done].
           exists L, clientIssuer. repeat split; try done.
           apply validateChain_Ok_iff in Hchain as [Hall HT].
           rewrite from_option_Some_None in HT. symmetry in HT.
           intros c Hc Hi.
           destruct ((bundleMaps certBundle).2 !! Issuer c) as [i|] eqn:Hci.
           ++ exists i. split; [done|]. apply Hall; [|done].
              by apply elem_of_intermediates.
           ++ destruct (proj1 (last_filter_None
                         (λ c, (bundleMaps certBundle).2 !! Issuer c = None) _) HT c);
                [by apply elem_of_intermediates|done].
        -- pose proof (validateChain_Err _ _ _ _ Hchain) as ->.
           split; [done|]. split.
           ++ split; [done|]. intros (? & ? & [= <-] & ? & _ & Hall).
              apply validateChain_Err_inv in Hchain
                as (c & i & e' & [Hc Hi]%elem_of_intermediates & Hci & Hv).
              destruct (Hall c Hc Hi) as (? & ? & ?). congruence.
           ++ intros _.
              apply validateChain_Err_inv in Hchain
                as (c & i & e' & [Hc Hi]%elem_of_intermediates & Hci & Hv).
              by exists c, i, e'.
        -- split; [done|]. split; [|done]. split; [done|].
           intros (? & ? & [= <-] & ? & _ & Hall).
           apply validateChain_Panic_inv in Hchain
             as (c & i & [Hc Hi]%elem_of_intermediates & Hci & Hv).
           destruct (Hall c Hc Hi) as (? & ? & ?). congruence.
      * pose proof (validateCertificate_Err_not_bundleError _ _ _ HvL) as Hnb.
        split; [|split].
        -- split; [intros [= ->]; destruct Hnb; by left|done].
        -- split; [intros [= ->]; destruct Hnb; right; by left|].
           intros (? & ? & [= <-] & ? & ? & _). congruence.
        -- intros [= ->]. destruct Hnb. right. by right.
      * split; [done|]. split; [|done]. split; [done|].
        intros (? & ? & [= <-] & ? & ? & _). congruence.
    + destruct (Validate pool L) as [[]|e|] eqn:HvL; simpl.
      * split; [done|]. split; [|done]. split; [done|].
        intros (? & ? & [= <-] & ? & _). congruence.
      * split; [done|]. split; [|done]. split; [done|].
        intros (? & ? & [= <-] & ? & _). congruence.
      * split; [done|]. split; [|done]. split; [done|].
        intros (? & ? & [= <-] & ? & _). congruence.
  - split; [|split; [|done]].
    + split; [intros _|done].
      intros c Hc. destruct (decide (issuesIn certBundle c)) as [|Hn]; [done|].
      by destruct (proj1 (last_filter_None (λ c, ¬ issuesIn certBundle c) _) Hleaf c).
    + split; [done|]. by intros (? & ? & ? & _).
Qed.

(** X10. [ValidateBundle] panics only on a missing validity or on a key of
    the wrong size: when it panics, a certificate of the bundle or a
    certificate of the pool has no validity or a public key that is not of
    [PublicKeySize] bytes. So on a bundle and a pool whose certificates all
    carry a validity and a key of that size it returns a certificate or an
    error. *)
Theorem ValidateBundle_Panic_inv (pool : CertPool) certBundle :
  ValidateBundle pool certBundle = Panic →
  (∃ c, c ∈ certBundle
     ∧ (Validity_ c = None ∨ length (PubKey c) ≠ PublicKeySize))
  ∨ (∃ k root, pool !! k = Some (Some root)
       ∧ (Validity_ root = None ∨ length (PubKey root) ≠ PublicKeySize)).
Proof.
  rewrite ValidateBundle_classified.
  destruct (last (filter (λ c, ¬ issuesIn certBundle c) certBundle)) as [L|] eqn:Hleaf;
    [|done].
  apply (last_filter_elem (λ c, ¬ issuesIn certBundle c)) in Hleaf as [HL _].
  destruct ((bundleMaps certBundle).2 !! Issuer L) as [clientIssuer|] eqn:HI.
  - apply subjectMap_Some in HI as [HI _].
    destruct (validateCertificate L (PubKey clientIssuer)) as [[]|e|] eqn:HvL.
    + destruct (validateChain _ _ None) as [[T|]|e|] eqn:Hchain; simpl; [|done..|].
      * apply validateChain_Ok_iff in Hchain as [_ HT].
        rewrite from_option_Some_None in HT. symmetry in HT.
        apply (last_filter_elem (λ c, (bundleMaps certBundle).2 !! Issuer c = None))
          in HT as [[HT _]%elem_of_intermediates _].
        destruct (Validate pool T) as [[]|e|] eqn:HvT; [done..|].
        intros _. apply Validate_Panic_inv in HvT as [?|?]; [left|by right].
        exists T. auto.
      * intros _. left.
        apply validateChain_Panic_inv in Hchain
          as (c & i & [Hc _]%elem_of_intermediates & [Hi _]%subjectMap_Some & Hv).
        apply validateCertificate_Panic_inv in Hv as [?|?];
          [exists c|exists i]; auto.
    + done.
    + intros _. left.
      apply validateCertificate_Panic_inv in HvL as [?|?];
        [exists L|exists clientIssuer]; auto.
  - destruct (Validate pool L) as [[]|e|] eqn:HvL; [done..|].
    intros _. apply Validate_Panic_inv in HvL as [?|?]; [left|by right].
    exists L. auto.
Qed.
End ValidateBundle_errors.

(** ** Chain tops that are overwritten *)

Section chain_top.
Context `{Codec, Ed25519, Clock}.

(** X11. Only the last chain top is taken to the pool. In the bundle
    [F; X; Y; L], where [F] is the issuer of [L], [X] the issuer of [Y], and
    neither [F] nor [X] has an issuer in the bundle, [ValidateBundle] returns
    [L] as soon as [L] validates under the key of [F] and the pool validates
    [X]: nothing is asked of [F], neither a validity nor a signature, and
    nothing of [Y]. *)
Theorem ValidateBundle_last_chain_top_only (pool : CertPool) F X Y L :
  Issuer L = Subject F → Issuer Y = Subject X →
  Issuer F ∉ [Subject F; Subject X; Subject Y; Subject L] →
  Issuer X ∉ [Subject F; Subject X; Subject Y; Subject L] →
  Subject F ≠ Subject X →
  Subject Y ∉ [Subject F; Subject X] →
  Subject L ∉ [Subject F; Subject X] →
  validateCertificate L (PubKey F) = Ok tt →
  Validate pool X = Ok tt →
  ValidateBundle pool [F; X; Y; L] = Ok L.
Proof.
  intros HL HY HF HX HFX HYn HLn HvL HvX.
  repeat (apply not_elem_of_cons in HF as [? HF]).
  repeat (apply not_elem_of_cons in HX as [? HX]).
  repeat (apply not_elem_of_cons in HYn as [? HYn]).
  repeat (apply not_elem_of_cons in HLn as [? HLn]).
  unfold ValidateBundle, classify, bundleMaps. simpl. rewrite HL, HY.
  simplify_map_eq. rewrite HL. simplify_map_eq. by rewrite HvL, HvX.
Qed.
End chain_top.

(** ** Seconds *)

(** X13. [Time] has second precision. [NewTime] of the [StdTime] of a time
    stamp is that time stamp; [StdTime] of [NewTime] of an instant is the
    start of the second the instant lies in; and [NewTime] gives a time stamp
    on which [IsZero] holds exactly for the instants of the first second of
    the epoch. *)
Theorem NewTime_StdTime :
  (∀ t : Time, (now ← StdTime (Some t); Ok (NewTime now)) = Ok (Some t))
  ∧ (∀ now : time, ∃ t : Time,
       NewTime now = Some t ∧ StdTime (NewTime now) = Ok (time_Unix t 0)
       ∧ time_Unix t 0 ≤ now < time_Unix t 0 + 1000000000)
  ∧ (∀ now : time, IsZero (NewTime now) = true ↔ 0 ≤ now < 1000000000).
Proof.
  unfold NewTime, StdTime, time_Unix, IsZero. simpl. split; [|split].
  - intros t. do 2 f_equal. rewrite Z.add_0_r. by apply Z.div_mul.
  - intros now. exists (now / 1000000000). split; [done|]. split; [done|].
    pose proof (Z.mul_div_le now 1000000000).
    pose proof (Z.mul_succ_div_gt now 1000000000). lia.
  - intros now. rewrite Z.eqb_eq. split.
    + intros Hz. pose proof (Z.mul_div_le now 1000000000).
      pose proof (Z.mul_succ_div_gt now 1000000000). lia.
    + intros Hn. by apply Z.div_small.
Qed.

(** * The further properties on concrete certificates *)

Section concrete_further.
#[local] Existing Instances Wire.codec Example.ed25519 Example.clock.
Import Example.

(** The clock stands 500 nanoseconds into the last second of [lastSecond];
    the first second of [endOfTimes] is out of the reach of [time.Unix]. *)
Lemma validateCertificate_window_exact_witness :
  Validity_ lastSecond = Some (mkValidity (Some 1500000000) (Some 1600000000))
  ∧ clockInRange
  ∧ validateCertificate lastSecond rootKey = Err ExpiredError
  ∧ wraps MaxInt64
  ∧ validateCertificate endOfTimes rootKey ≠ Err NotYetValidError.
Proof.
  assert (clockInRange) as Hclock by (by vm_compute).
  assert (wraps MaxInt64) as Hwraps by (by vm_compute).
  split; [by vm_compute|]. split; [done|]. split; [|split; [done|]].
  - destruct (validateCertificate_window_exact lastSecond
                (mkValidity (Some 1500000000) (Some 1600000000)) rootKey)
      as ((_ & Hexpired) & _ & _); [by vm_compute|done| | |].
    + intros t [= <-]. by vm_compute.
    + intros t [= <-]. by vm_compute.
    + apply Hexpired. split.
      * intros (notBefore & [= <-] & _ & Hlt). by vm_compute in Hlt.
      * exists 1600000000. by vm_compute.
  - destruct (validateCertificate_window_exact endOfTimes
                (mkValidity (Some MaxInt64) None) rootKey)
      as (_ & Hnever & _); [by vm_compute|done|].
    by apply (Hnever MaxInt64).
Defined.

Lemma Validate_NewCertPool_witness :
  Validate (NewCertPool [root]) leaf = Err UnknownIssuerError.
Proof.
  apply (Validate_NewCertPool [root] leaf).
  by intros r ->%list_elem_of_singleton.
Defined.

Lemma ValidateBundle_Ok_sound_witness :
  ValidateBundle (NewCertPool [root]) [intermediate; leaf] = Ok leaf
  ∧ passesTimeChecks leaf = true.
Proof.
  split; [by vm_compute|].
  destruct (ValidateBundle_Ok_sound (NewCertPool [root]) [intermediate; leaf] leaf)
    as (_ & _ & Hchecks & _); [by vm_compute|exact Hchecks].
Defined.

Lemma ValidateBundle_Panic_inv_witness :
  ValidateBundle (NewCertPool [root]) [unbounded] = Panic
  ∧ ((∃ c, c ∈ [unbounded]
        ∧ (Validity_ c = None ∨ length (PubKey c) ≠ PublicKeySize))
     ∨ (∃ k r, NewCertPool [root] !! k = Some (Some r)
          ∧ (Validity_ r = None ∨ length (PubKey r) ≠ PublicKeySize))).
Proof.
  split; [by vm_compute|].
  apply (ValidateBundle_Panic_inv (NewCertPool [root]) [unbounded]).
  by vm_compute.
Defined.

Lemma ValidateBundle_last_chain_top_only_witness :
  Validity_ stranger = None ∧ Signature stranger = []
  ∧ ValidateBundle (NewCertPool [root]) [stranger; intermediate; leaf; guest]
    = Ok guest.
Proof.
  split; [done|]. split; [done|].
  apply (ValidateBundle_last_chain_top_only (NewCertPool [root])
           stranger intermediate leaf guest);
    try (by vm_compute);
    repeat (apply not_elem_of_cons; split; [by vm_compute|]);
    apply not_elem_of_nil.
Defined.
End concrete_further.
